(** * CounterStrikeSharp: the script callback dispatcher

    A shallow embedding of [src/scripting/callback_manager.cpp]:
    [ScriptCallback] (one named dispatch point with its listener vector and
    its call context) and [CallbackManager] (the registry that owns the
    callbacks), followed by the properties of the dispatcher. *)

From stdpp Require Import base numbers list strings gmap.
From Stdlib Require Import ZArith Lia.

Local Open Scope Z_scope.

(** ** Function pointers

    [CallbackT] is a native function pointer; the code only ever looks at its
    address, [reinterpret_cast<uintptr_t>(fn)], a 64-bit unsigned integer. *)

Definition CallbackT : Type := Z.

Definition is_uintptr (p : Z) : Prop := 0 ≤ p < 2 ^ 64.

(** [ptrValue < 0x1000 || (ptrValue >> 56) != 0], the test that both
    [AddListener] and [Execute] apply to an address. *)
Definition corrupted (ptrValue : Z) : bool :=
  (ptrValue <? 0x1000) || negb (Z.shiftr ptrValue 56 =? 0).

(** ** The logging sink

    [CSSHARP_CORE_TRACE/INFO/WARN/ERROR] append a line to the core log. A line
    is kept as its level and its format string with the arguments it was
    given. *)

Inductive level : Type := TRACE | INFO | WARN | ERROR.

Inductive message : Type :=
  | AddNull (name : string)
  | AddCorrupted (ptrValue : Z) (name : string)
  | Added (ptrValue : Z) (name : string)
  | RemoveNull (name : string)
  | Removed (ptrValue : Z) (name : string)
  | ContextInvalid
  | ExecuteAborted (name : string)
  | NullInCallback (name : string) (nI : nat)
  | CorruptedInCallback (name : string) (nI : nat) (ptrValue : Z)
  | ExceptionInCallback (name : string) (nI : nat)
  | Creating (name : string)
  | ReleaseNull
  | Releasing (name : string)
  | Released
  | ReleaseNotFound (name : string)
  | Foreign (text : string).

Definition line : Type := level * message.

(** What a run leaves behind for an observer: the log lines, and the calls
    [fnMethodToCall(&ScriptContextStruct())] made by [Execute] itself, each
    with the index [nI] of the loop. *)
Inductive event : Type :=
  | Log (lv : level) (m : message)
  | Invoke (nI : nat) (fn : CallbackT).

Definition log_line (l : line) : event := Log l.1 l.2.

(** The calls of a trace, in order. *)
Fixpoint invoked (tr : list event) : list CallbackT :=
  match tr with
  | [] => []
  | Invoke _ fn :: tr => fn :: invoked tr
  | Log _ _ :: tr => invoked tr
  end.

(** ** Effects: state, C++ exceptions and the trace

    A computation over a state [S] ends normally with a value or with a thrown
    exception ([catch (...)] does not look at what was thrown), in a new state,
    having emitted events. *)

Inductive outcome (A : Type) : Type :=
  | Normal (a : A)
  | Thrown.
Arguments Normal {A} a.
Arguments Thrown {A}.

Definition Eff (S A : Type) : Type := S → outcome A * S * list event.

Definition result {S A} (r : outcome A * S * list event) : outcome A := r.1.1.
Definition state {S A} (r : outcome A * S * list event) : S := r.1.2.
Definition trace {S A} (r : outcome A * S * list event) : list event := r.2.

Definition eff_ret {S A} (a : A) : Eff S A := λ s, (Normal a, s, []).

Definition eff_bind {S A B} (f : A → Eff S B) (m : Eff S A) : Eff S B :=
  λ s, match m s with
       | (Normal a, s1, tr1) =>
           match f a s1 with (r, s2, tr2) => (r, s2, tr1 ++ tr2) end
       | (Thrown, s1, tr1) => (Thrown, s1, tr1)
       end.

Global Instance Eff_ret {S} : MRet (Eff S) := @eff_ret S.
Global Instance Eff_bind {S} : MBind (Eff S) := @eff_bind S.

Definition gets {S A} (f : S → A) : Eff S A := λ s, (Normal (f s), s, []).
Definition modify {S} (f : S → S) : Eff S unit := λ s, (Normal tt, f s, []).
Definition tell {S} (tr : list event) : Eff S unit := λ s, (Normal tt, s, tr).
Definition throw {S A} : Eff S A := λ s, (Thrown, s, []).

(** [try { body } catch (...) { handler }] *)
Definition try_catch {S A} (body handler : Eff S A) : Eff S A :=
  λ s, match body s with
       | (Normal a, s1, tr1) => (Normal a, s1, tr1)
       | (Thrown, s1, tr1) =>
           match handler s1 with (r, s2, tr2) => (r, s2, tr1 ++ tr2) end
       end.

Definition CSSHARP_CORE {S} (lv : level) (m : message) : Eff S unit :=
  tell [Log lv m].

(** ** The call context *)

Module ScriptContext.

(** Modelled from the spec: the call context ([fxNativeContext] and its
    wrapper [ScriptContextRaw], declared in [script_engine.h], which is not
    part of the sources at hand). The spec describes it as one mutable value
    that carries arguments in and a result or an error out, that has a
    zero/default state, and that a misbehaving caller may leave in a state
    in which touching it raises a fault. *)
Record t : Type := mk {
  arguments : list Z;
  result_slot : Z;
  native_error : option string;
  torn_down : bool
}.

(** Modelled from the spec: the zero/default state, [fxNativeContext{}]. *)
Definition zero : t :=
  {| arguments := []; result_slot := 0; native_error := None;
     torn_down := false |}.

(** Modelled from the spec: [GetResult<void*>()], a read of the result slot,
    which raises a fault on a context that cannot be touched. *)
Definition GetResult {S} (c : t) : Eff S Z :=
  if torn_down c then throw else mret (result_slot c).

(** Modelled from the spec: [ThrowNativeError(msg)] signals a native-side
    error through the context; it returns to its caller. *)
Definition ThrowNativeError (msg : string) (c : t) : t :=
  {| arguments := arguments c; result_slot := result_slot c;
     native_error := Some msg; torn_down := torn_down c |}.

(** Modelled from the spec: [Reset()] restores the zero/default state. *)
Definition Reset (c : t) : t := zero.

End ScriptContext.

(** ** ScriptCallback *)

Record ScriptCallback : Type := mkScriptCallback {
  m_name : string;
  m_functions : list CallbackT;
  m_root_context : ScriptContext.t
}.

Definition set_functions (fs : list CallbackT) (cb : ScriptCallback) : ScriptCallback :=
  {| m_name := m_name cb; m_functions := fs; m_root_context := m_root_context cb |}.

Definition set_context (c : ScriptContext.t) (cb : ScriptCallback) : ScriptCallback :=
  {| m_name := m_name cb; m_functions := m_functions cb; m_root_context := c |}.

Definition on_context (f : ScriptContext.t → ScriptContext.t) (cb : ScriptCallback)
  : ScriptCallback :=
  set_context (f (m_root_context cb)) cb.

(** [ScriptCallback::ScriptCallback(szName)] *)
Definition Construct (szName : string) : ScriptCallback :=
  {| m_name := szName; m_functions := []; m_root_context := ScriptContext.zero |}.

(** [std::vector::push_back] *)
Definition push_back {A} (x : A) (v : list A) : list A := v ++ [x].

(** [std::ranges::remove(v, x)]: the elements that differ from [x] are moved
    to the front in their order, the slots behind them keep what they held;
    the iterator returned is the index where the kept elements end. *)
Definition ranges_remove_if {A} (P : A → bool) (v : list A) : list A * nat :=
  let kept := List.filter (λ y, negb (P y)) v in
  (kept ++ drop (length kept) v, length kept).

(** [v.erase(first, v.end())] *)
Definition erase_to_end {A} (first : nat) (v : list A) : list A := take first v.

(** [void ScriptCallback::AddListener(CallbackT fnPluginFunction)] *)
Definition AddListener (fnPluginFunction : CallbackT) : Eff ScriptCallback unit :=
  name ← gets m_name;
  if bool_decide (fnPluginFunction = 0) then
    CSSHARP_CORE ERROR (AddNull name)
  else
    let ptrValue := fnPluginFunction in
    if corrupted ptrValue then
      CSSHARP_CORE ERROR (AddCorrupted ptrValue name)
    else
      modify (λ cb, set_functions (push_back fnPluginFunction (m_functions cb)) cb);;
      CSSHARP_CORE TRACE (Added ptrValue name).

(** [bool ScriptCallback::RemoveListener(CallbackT fnPluginFunction)] *)
Definition RemoveListener (fnPluginFunction : CallbackT) : Eff ScriptCallback bool :=
  name ← gets m_name;
  if bool_decide (fnPluginFunction = 0) then
    CSSHARP_CORE WARN (RemoveNull name);;
    mret false
  else
    nOriginalSize ← gets (λ cb, length (m_functions cb));
    modify (λ cb,
      let '(v, new_end) := ranges_remove_if (λ y, bool_decide (y = fnPluginFunction))
                       (m_functions cb) in
      set_functions (erase_to_end new_end v) cb);;
    size ← gets (λ cb, length (m_functions cb));
    let removed := negb (size =? nOriginalSize)%nat in
    (if removed then CSSHARP_CORE TRACE (Removed fnPluginFunction name)
     else mret tt);;
    mret removed.

(** [bool ScriptCallback::IsContextSafe()] *)
Definition IsContextSafe : Eff ScriptCallback bool :=
  try_catch
    (Ctx ← gets m_root_context;
     ScriptContext.GetResult Ctx;;
     mret true)
    (CSSHARP_CORE WARN ContextInvalid;;
     mret false).

(** [void ScriptCallback::Reset()] *)
Definition Reset : Eff ScriptCallback unit :=
  modify (on_context ScriptContext.Reset).

(** ** Listeners

    The code behind a function pointer belongs to a plugin. Called with the
    address of the callback's context it may do anything to the callback it
    can reach through the manager, its listener vector included, write log
    lines, and return or throw. *)

Definition Listener : Type := ScriptCallback → outcome unit * ScriptCallback * list line.

Definition Plugins : Type := CallbackT → Listener.

(** [fnMethodToCall(&ScriptContextStruct())] *)
Definition call (nI : nat) (fn : CallbackT) (body : Listener) : Eff ScriptCallback unit :=
  λ cb, match body cb with
        | (r, cb1, ls) => (r, cb1, Invoke nI fn :: map log_line ls)
        end.

(** A listener written against the callback's own interface. *)
Definition as_listener (m : Eff ScriptCallback unit) : Listener :=
  λ cb, match m cb with
        | (r, cb1, tr) =>
            (r, cb1, omap (λ e, match e with
                                | Log lv msg => Some (lv, msg)
                                | Invoke _ _ => None
                                end) tr)
        end.

(** The body of the [for] loop of [Execute] at index [nI]. *)
Definition Execute_step (code : Plugins) (nI : nat) (fnMethodToCall : CallbackT)
  : Eff ScriptCallback unit :=
  if bool_decide (fnMethodToCall = 0) then
    name ← gets m_name;
    CSSHARP_CORE ERROR (NullInCallback name nI)
  else
    let ptrValue := fnMethodToCall in
    if corrupted ptrValue then
      name ← gets m_name;
      CSSHARP_CORE ERROR (CorruptedInCallback name nI ptrValue)
    else
      try_catch
        (call nI fnMethodToCall (code fnMethodToCall))
        (modify (on_context
                   (ScriptContext.ThrowNativeError "Exception in callback execution"));;
         name ← gets m_name;
         CSSHARP_CORE ERROR (ExceptionInCallback name nI)).

(** [for (size_t nI = 0; nI < functionsCopy.size(); ++nI)], from index [nI]
    on; [rest] is what of [functionsCopy] lies at and after [nI]. *)
Fixpoint Execute_loop (code : Plugins) (nI : nat) (rest : list CallbackT)
  : Eff ScriptCallback unit :=
  match rest with
  | [] => mret tt
  | fnMethodToCall :: rest =>
      Execute_step code nI fnMethodToCall;;
      Execute_loop code (S nI) rest
  end.

(** [void ScriptCallback::Execute(bool bResetContext)] *)
Definition Execute (code : Plugins) (bResetContext : bool) : Eff ScriptCallback unit :=
  safe ← IsContextSafe;
  if negb safe then
    modify (on_context
              (ScriptContext.ThrowNativeError
                 "ScriptCallback::Execute aborted due to invalid context"));;
    name ← gets m_name;
    CSSHARP_CORE WARN (ExecuteAborted name)
  else
    functionsCopy ← gets m_functions;
    Execute_loop code 0 functionsCopy;;
    if bResetContext then Reset else mret tt.

(** The test that keeps, of a listener vector, the entries other than [fn]. *)
Definition differs (fn : CallbackT) (y : CallbackT) : bool :=
  negb (bool_decide (y = fn)).

(** A listener vector as [AddListener] builds it: no entry fails the address
    test (a null pointer fails it too). *)
Definition valid (fn : CallbackT) : Prop := corrupted fn = false.

Definition valid_callback (cb : ScriptCallback) : Prop :=
  Forall valid (m_functions cb).

(** The probe of [Execute] finds the context usable. *)
Definition context_safe (cb : ScriptCallback) : Prop :=
  result (IsContextSafe cb) = Normal true.

(** [AddListener] called for each pointer of [fns] in turn. *)
Definition add_all (fns : list CallbackT) (cb : ScriptCallback) : ScriptCallback :=
  foldl (λ s fn, state (AddListener fn s)) cb fns.

(** The callback as one pass of the loop of [Execute] leaves it, entry after
    entry. *)
Definition after_pass (code : Plugins) (fns : list CallbackT) (cb : ScriptCallback)
  : ScriptCallback :=
  foldl (λ s fn, state (Execute_step code 0 fn s)) cb fns.

(** ** CallbackManager

    Callbacks live on the heap; a [ScriptCallback*] is an address, 0 for
    [nullptr]. The manager keeps the addresses of those it owns in
    [m_managed]. Using an address that is not live (reading through it or
    deleting it) has no defined behaviour: such a run has no result. *)

Definition nullptr : N := 0%N.

(** [new ScriptCallback(...)]: an address that is not null and not in use. *)
Class Allocator : Type := {
  operator_new : gmap N ScriptCallback → N;
  operator_new_fresh : ∀ h, operator_new h ≠ nullptr ∧ h !! operator_new h = None
}.

(** An allocator that hands out the address after the highest one in use. *)
Definition bump (h : gmap N ScriptCallback) : N :=
  fresh (nullptr :: elements (dom h)).

Global Program Instance bump_allocator : Allocator := {| operator_new := bump |}.
Next Obligation.
  intros h. pose proof (infinite_is_fresh (nullptr :: elements (dom h))) as Hf.
  fold (bump h) in Hf. apply not_elem_of_cons in Hf as [Hn Hd].
  split; [done|]. apply not_elem_of_dom. by rewrite <- elem_of_elements.
Qed.

Record Process : Type := mkProcess {
  heap : gmap N ScriptCallback;
  m_managed : list N
}.

Definition Proc (A : Type) : Type := Process → option (outcome A * Process * list event).

(** [CallbackManager::CallbackManager()] in a process that has no callback. *)
Definition startup : Process := {| heap := ∅; m_managed := [] |}.

(** [strcmp(a, b) == 0] on C strings. *)
Definition strcmp_is_0 (a b : string) : bool := String.eqb a b.

(** [ScriptCallback* CallbackManager::CreateCallback(const char* szName)] *)
Definition CreateCallback `{Allocator} (szName : string) (st : Process)
  : N * Process * list event :=
  let pCallback := operator_new (heap st) in
  (pCallback,
   {| heap := <[pCallback := Construct szName]> (heap st);
      m_managed := push_back pCallback (m_managed st) |},
   [Log TRACE (Creating szName)]).

(** The loop of [FindCallback] over what is left of [m_managed]. *)
Fixpoint FindCallback_loop (h : gmap N ScriptCallback) (szName : string)
    (rest : list N) : option N :=
  match rest with
  | [] => Some nullptr
  | pMarshal :: rest =>
      match h !! pMarshal with
      | None => None
      | Some cb =>
          if strcmp_is_0 (m_name cb) szName then Some pMarshal
          else FindCallback_loop h szName rest
      end
  end.

(** [ScriptCallback* CallbackManager::FindCallback(const char* szName)] *)
Definition FindCallback (szName : string) (st : Process) : option N :=
  FindCallback_loop (heap st) szName (m_managed st).

(** [void CallbackManager::ReleaseCallback(ScriptCallback* pCallback)] *)
Definition ReleaseCallback (pCallback : N) : Proc unit :=
  λ st,
    if (pCallback =? nullptr)%N then
      Some (Normal tt, st, [Log WARN ReleaseNull])
    else
      match heap st !! pCallback with
      | None => None
      | Some cb =>
          let '(v, new_end) :=
            ranges_remove_if (λ pI, (pCallback =? pI)%N) (m_managed st) in
          if negb (new_end =? length v)%nat then
            Some (Normal tt,
                  {| heap := delete pCallback (heap st);
                     m_managed := erase_to_end new_end v |},
                  [Log TRACE (Releasing (m_name cb)); Log TRACE Released])
          else
            Some (Normal tt,
                  {| heap := delete pCallback (heap st); m_managed := v |},
                  [Log TRACE (Releasing (m_name cb));
                   Log WARN (ReleaseNotFound (m_name cb))])
      end.

(** A member function run on the callback at [pCallback]. *)
Definition on_callback {A} (pCallback : N) (m : Eff ScriptCallback A) : Proc A :=
  λ st,
    match heap st !! pCallback with
    | None => None
    | Some cb =>
        match m cb with
        | (r, cb1, tr) =>
            Some (r, {| heap := <[pCallback := cb1]> (heap st);
                        m_managed := m_managed st |}, tr)
        end
    end.

(** [bool CallbackManager::TryAddFunction(const char* szName, CallbackT fnCallable)] *)
Definition TryAddFunction (szName : string) (fnCallable : CallbackT) : Proc bool :=
  λ st,
    match FindCallback szName st with
    | None => None
    | Some pCallback =>
        if negb (pCallback =? nullptr)%N then
          match on_callback pCallback (AddListener fnCallable) st with
          | Some (Normal _, st1, tr) => Some (Normal true, st1, tr)
          | Some (Thrown, st1, tr) => Some (Thrown, st1, tr)
          | None => None
          end
        else Some (Normal false, st, [])
    end.

(** [bool CallbackManager::TryRemoveFunction(const char* szName, CallbackT fnCallable)] *)
Definition TryRemoveFunction (szName : string) (fnCallable : CallbackT) : Proc bool :=
  λ st,
    match FindCallback szName st with
    | None => None
    | Some pCallback =>
        if negb (pCallback =? nullptr)%N then
          on_callback pCallback (RemoveListener fnCallable) st
        else Some (Normal false, st, [])
    end.

(** The test that keeps, of a vector of addresses, those that are not [p]. *)
Definition other (p : N) (q : N) : bool := negb (p =? q)%N.

(** What the manager relies on: the null address holds nothing, and every
    address in [m_managed] is live and listed once. *)
Definition managed_ok (st : Process) : Prop :=
  heap st !! nullptr = None ∧
  NoDup (m_managed st) ∧
  ∀ p, p ∈ m_managed st → is_Some (heap st !! p).

(** ** A plugin session

    The example of the specification: callback "round_start" with listeners
    at three addresses of a loaded plugin, and the listener bodies used to
    exercise the dispatcher. *)

Module Session.

Definition fnA : CallbackT := 0x7ffe10001000.
Definition fnB : CallbackT := 0x7ffe10002000.
Definition fnC : CallbackT := 0x7ffe10003000.

(** A listener that returns at once. *)
Definition idle : Listener := as_listener (mret tt).

(** A listener that throws. *)
Definition faulty : Listener := as_listener throw.

(** Every listener returns at once. *)
Definition quiet : Plugins := λ _, idle.

(** [fnA] registers [fnC] on the callback it is called from. *)
Definition adds : Plugins :=
  λ fn, if bool_decide (fn = fnA) then as_listener (AddListener fnC) else idle.

(** [fnA] unregisters [fnB], which has not run yet. *)
Definition removes : Plugins :=
  λ fn, if bool_decide (fn = fnA)
        then as_listener (RemoveListener fnB;; mret tt) else idle.

(** [fnB] throws. *)
Definition faults : Plugins :=
  λ fn, if bool_decide (fn = fnB) then faulty else idle.

Definition round_start (fns : list CallbackT) : ScriptCallback :=
  add_all fns (Construct "round_start").

(** A context that its caller has torn down. *)
Definition torn : ScriptContext.t :=
  {| ScriptContext.arguments := []; ScriptContext.result_slot := 0;
     ScriptContext.native_error := None; ScriptContext.torn_down := true |}.

End Session.

(** A process whose manager owns one callback, "round_start", at address 1;
    a second callback of that name lives at address 2 outside the manager. *)
Definition one_callback : Process :=
  {| heap := <[1%N := Session.round_start [Session.fnA]]>
               (<[2%N := Construct "round_start"]> ∅);
     m_managed := [1%N] |}.
(** ** The rest of the interface *)

From stdpp Require Import pretty.

Local Open Scope Z_scope.

(** A plugin's calls to a callback's listener interface, one after the
    other. *)
Inductive listener_op : Type :=
  | OpAdd (fn : CallbackT)
  | OpRemove (fn : CallbackT).

Definition apply_op (op : listener_op) (cb : ScriptCallback) : ScriptCallback :=
  match op with
  | OpAdd fn => state (AddListener fn cb)
  | OpRemove fn => state (RemoveListener fn cb)
  end.

Definition apply_ops (ops : list listener_op) (cb : ScriptCallback) : ScriptCallback :=
  foldl (λ s op, apply_op op s) cb ops.

(** Sequencing of manager operations: a run without defined behaviour has no
    continuation, a thrown exception skips what follows. *)
Definition proc_ret {A} (a : A) : Proc A := λ st, Some (Normal a, st, []).

Definition proc_bind {A B} (f : A → Proc B) (m : Proc A) : Proc B :=
  λ st, match m st with
        | None => None
        | Some (Normal a, st1, tr1) =>
            match f a st1 with
            | None => None
            | Some (r, st2, tr2) => Some (r, st2, tr1 ++ tr2)
            end
        | Some (Thrown, st1, tr1) => Some (Thrown, st1, tr1)
        end.

Global Instance Proc_ret : MRet Proc := @proc_ret.
Global Instance Proc_bind : MBind Proc := @proc_bind.

(** The lines of [ClearAllCallbacks], as the text they come out as. *)
Definition ClearingAll (n : nat) : message :=
  Foreign ("Clearing all " +:+ pretty n +:+ " managed callbacks").
Definition Clearing (name : string) : message :=
  Foreign ("Clearing callback '" +:+ name +:+ "'").
Definition AllCleared : message := Foreign "All callbacks cleared".

(** The loop of [ClearAllCallbacks] over what is left of [m_managed]: the
    heap it leaves and the lines it writes. *)
Fixpoint ClearAllCallbacks_loop (h : gmap N ScriptCallback) (rest : list N)
  : option (gmap N ScriptCallback * list event) :=
  match rest with
  | [] => Some (h, [])
  | pCallback :: rest =>
      if negb (pCallback =? nullptr)%N then
        match h !! pCallback with
        | None => None
        | Some cb =>
            match ClearAllCallbacks_loop (delete pCallback h) rest with
            | None => None
            | Some (h1, tr) => Some (h1, Log TRACE (Clearing (m_name cb)) :: tr)
            end
        end
      else ClearAllCallbacks_loop h rest
  end.

(** [void CallbackManager::ClearAllCallbacks()], which is also what
    [CallbackManager::~CallbackManager()] runs. *)
Definition ClearAllCallbacks : Proc unit :=
  λ st,
    match ClearAllCallbacks_loop (heap st) (m_managed st) with
    | None => None
    | Some (h1, tr) =>
        Some (Normal tt, {| heap := h1; m_managed := [] |},
              Log TRACE (ClearingAll (length (m_managed st)))
                :: tr ++ [Log TRACE AllCleared])
    end.

(** ** CallbackPair

    Two callbacks of the global manager, created and released together. *)
Record CallbackPair : Type := mkCallbackPair {
  pre : N;
  post : N
}.

(** [CallbackPair::CallbackPair()] *)
Definition CallbackPair_new `{Allocator} (st : Process)
  : CallbackPair * Process * list event :=
  let c1 := CreateCallback "" st in
  let c2 := CreateCallback "" c1.1.2 in
  ({| pre := c1.1.1; post := c2.1.1 |}, c2.1.2, c1.2 ++ c2.2).

(** [CallbackPair::CallbackPair(bool bNoCallbacks)]; [members] is what the
    two fields hold when the body starts. *)
Definition CallbackPair_new_optional `{Allocator} (bNoCallbacks : bool)
    (members : CallbackPair) (st : Process) : CallbackPair * Process * list event :=
  if negb bNoCallbacks then CallbackPair_new st else (members, st, []).

(** [CallbackPair::~CallbackPair()]; the result is the two fields as the body
    leaves them. *)
Definition CallbackPair_delete (this : CallbackPair) : Proc CallbackPair :=
  this1 ← (if negb (pre this =? nullptr)%N then
             ReleaseCallback (pre this);;
             mret {| pre := nullptr; post := post this |}
           else mret this);
  if negb (post this1 =? nullptr)%N then
    ReleaseCallback (post this1);;
    mret {| pre := pre this1; post := nullptr |}
  else mret this1.

(** ** Runs of the manager *)

Inductive manager_call : Type :=
  | CallCreate (szName : string)
  | CallRelease (pCallback : N)
  | CallTryAdd (szName : string) (fnCallable : CallbackT)
  | CallTryRemove (szName : string) (fnCallable : CallbackT)
  | CallClearAll.

Definition run_call `{Allocator} (c : manager_call) : Proc unit :=
  match c with
  | CallCreate szName =>
      λ st, let r := CreateCallback szName st in Some (Normal tt, r.1.2, r.2)
  | CallRelease pCallback => ReleaseCallback pCallback
  | CallTryAdd szName fnCallable => TryAddFunction szName fnCallable;; mret tt
  | CallTryRemove szName fnCallable => TryRemoveFunction szName fnCallable;; mret tt
  | CallClearAll => ClearAllCallbacks
  end.

Fixpoint run_calls `{Allocator} (cs : list manager_call) : Proc unit :=
  match cs with
  | [] => mret tt
  | c :: cs => run_call c;; run_calls cs
  end.

(** * Properties *)

(** ** Running computations *)

Ltac run :=
  repeat (unfold mbind, mret, Eff_bind, Eff_ret, eff_bind, eff_ret, gets, modify,
            tell, throw, try_catch, CSSHARP_CORE; simpl).

Lemma set_functions_same (cb : ScriptCallback) : set_functions (m_functions cb) cb = cb.
Proof. by destruct cb. Qed.

(** ** The address test *)

Lemma high_bits_clear (p : Z) :
  is_uintptr p → Z.shiftr p 56 = 0 ↔ ∀ i, 56 ≤ i < 64 → Z.testbit p i = false.
Proof.
  intros [Hlo Hhi]. split.
  - intros Hs i [Hi _].
    replace i with ((i - 56) + 56) by lia.
    rewrite <- Z.shiftr_spec by lia. rewrite Hs. apply Z.bits_0.
  - intros Hbits. apply Z.bits_inj'. intros n Hn.
    rewrite Z.shiftr_spec, Z.bits_0 by lia.
    destruct (decide (n + 56 < 64)) as [Hlt|Hge]; [apply Hbits; lia|].
    destruct (decide (p = 0)) as [->|Hp]; [apply Z.bits_0|].
    apply Z.bits_above_log2; [lia|].
    assert (Z.log2 p < 64) by (apply Z.log2_lt_pow2; lia). lia.
Qed.

Lemma corrupted_true (p : Z) :
  is_uintptr p →
  corrupted p = true ↔ p < 0x1000 ∨ ∃ i, 56 ≤ i < 64 ∧ Z.testbit p i = true.
Proof.
  intros Hp. unfold corrupted.
  rewrite orb_true_iff, negb_true_iff, Z.ltb_lt, Z.eqb_neq.
  rewrite (high_bits_clear p Hp). split.
  - intros [?|Hn]; [by left|right].
    destruct (decide (Z.testbit p 56 = true)); [exists 56; split; [lia|done]|].
    destruct (decide (Z.testbit p 57 = true)); [exists 57; split; [lia|done]|].
    destruct (decide (Z.testbit p 58 = true)); [exists 58; split; [lia|done]|].
    destruct (decide (Z.testbit p 59 = true)); [exists 59; split; [lia|done]|].
    destruct (decide (Z.testbit p 60 = true)); [exists 60; split; [lia|done]|].
    destruct (decide (Z.testbit p 61 = true)); [exists 61; split; [lia|done]|].
    destruct (decide (Z.testbit p 62 = true)); [exists 62; split; [lia|done]|].
    destruct (decide (Z.testbit p 63 = true)); [exists 63; split; [lia|done]|].
    exfalso. apply Hn. intros i Hi.
    assert (i = 56 ∨ i = 57 ∨ i = 58 ∨ i = 59 ∨ i = 60 ∨ i = 61 ∨ i = 62 ∨ i = 63)
      as Hc by lia.
    destruct (Z.testbit p i) eqn:E; [|done].
    destruct Hc as [->|[->|[->|[->|[->|[->|[->| ->]]]]]]]; congruence.
  - intros [?|(i & Hi & Hb)]; [by left|right].
    intros Hall. rewrite (Hall i Hi) in Hb. discriminate.
Qed.

Lemma corrupted_false (p : Z) :
  is_uintptr p →
  corrupted p = false ↔ 0x1000 ≤ p ∧ ∀ i, 56 ≤ i < 64 → Z.testbit p i = false.
Proof.
  intros Hp. unfold corrupted.
  rewrite orb_false_iff, negb_false_iff, Z.ltb_ge, Z.eqb_eq.
  by rewrite (high_bits_clear p Hp).
Qed.

Lemma valid_is_uintptr (fn : CallbackT) : valid fn → 0x1000 ≤ fn < 2 ^ 56.
Proof.
  unfold valid, corrupted.
  rewrite orb_false_iff, negb_false_iff, Z.ltb_ge, Z.eqb_eq, Z.shiftr_div_pow2 by lia.
  intros [Hlo Hhi]. split; [done|].
  apply Z.div_small_iff in Hhi; lia.
Qed.

(** ** AddListener *)

Lemma AddListener_null (cb : ScriptCallback) :
  AddListener 0 cb = (Normal tt, cb, [Log ERROR (AddNull (m_name cb))]).
Proof. reflexivity. Qed.

Lemma AddListener_corrupted (fn : CallbackT) (cb : ScriptCallback) :
  fn ≠ 0 → corrupted fn = true →
  AddListener fn cb = (Normal tt, cb, [Log ERROR (AddCorrupted fn (m_name cb))]).
Proof.
  intros Hn Hc. unfold AddListener. run.
  rewrite bool_decide_eq_false_2 by done. rewrite Hc. by run.
Qed.

Lemma AddListener_accepted (fn : CallbackT) (cb : ScriptCallback) :
  corrupted fn = false →
  AddListener fn cb =
    (Normal tt, set_functions (m_functions cb ++ [fn]) cb,
     [Log TRACE (Added fn (m_name cb))]).
Proof.
  intros Hc. unfold AddListener. run.
  assert (fn ≠ 0) by (intros ->; discriminate).
  rewrite bool_decide_eq_false_2 by done. rewrite Hc. by run.
Qed.

(** ** RemoveListener *)

Lemma erase_remove {A} (P : A → bool) (v : list A) :
  erase_to_end (ranges_remove_if P v).2 (ranges_remove_if P v).1
  = List.filter (λ y, negb (P y)) v.
Proof.
  unfold erase_to_end, ranges_remove_if. simpl.
  by rewrite take_app_length.
Qed.

Lemma filter_differs_elem (fn g : CallbackT) (v : list CallbackT) :
  g ∈ List.filter (differs fn) v ↔ g ∈ v ∧ g ≠ fn.
Proof.
  rewrite !list_elem_of_In, filter_In. unfold differs.
  rewrite negb_true_iff, bool_decide_eq_false. done.
Qed.

Lemma filter_differs_absent (fn : CallbackT) (v : list CallbackT) :
  fn ∉ v → List.filter (differs fn) v = v.
Proof.
  induction v as [|y v IH]; [done|]. intros Hn. simpl.
  apply not_elem_of_cons in Hn as [Hy Hv]. unfold differs at 1.
  rewrite bool_decide_eq_false_2 by congruence. simpl. by rewrite IH.
Qed.

Lemma filter_differs_length (fn : CallbackT) (v : list CallbackT) :
  fn ∈ v → (length (List.filter (differs fn) v) < length v)%nat.
Proof.
  induction v as [|y v IH]; [by intros ?%elem_of_nil|].
  intros Hin. simpl. pose proof (filter_length_le (differs fn) v) as Hle.
  unfold differs at 1. destruct (decide (y = fn)) as [->|Hne].
  - rewrite bool_decide_eq_true_2 by done. simpl. lia.
  - rewrite bool_decide_eq_false_2 by done. simpl.
    apply elem_of_cons in Hin as [->|Hin]; [done|]. specialize (IH Hin). lia.
Qed.

Lemma filter_differs_count (fn g : CallbackT) (v : list CallbackT) :
  g ≠ fn →
  count_occ Z.eq_dec (List.filter (differs fn) v) g = count_occ Z.eq_dec v g.
Proof.
  intros Hg. induction v as [|y v IH]; [done|].
  simpl. unfold differs at 1. destruct (decide (y = fn)) as [->|Hy].
  - rewrite bool_decide_eq_true_2 by done. simpl.
    destruct (Z.eq_dec fn g); [congruence|]. apply IH.
  - rewrite bool_decide_eq_false_2 by done. simpl.
    destruct (Z.eq_dec y g); by rewrite IH.
Qed.

Lemma RemoveListener_run (fn : CallbackT) (cb : ScriptCallback) :
  fn ≠ 0 →
  RemoveListener fn cb =
    let kept := List.filter (differs fn) (m_functions cb) in
    let removed := negb (length kept =? length (m_functions cb))%nat in
    (Normal removed, set_functions kept cb,
     if removed then [Log TRACE (Removed fn (m_name cb))] else []).
Proof.
  intros Hn. unfold RemoveListener. run.
  rewrite bool_decide_eq_false_2 by done. run.
  pose proof (erase_remove (λ y, bool_decide (y = fn)) (m_functions cb)) as He.
  unfold ranges_remove_if in He. simpl in He. rewrite !He.
  fold (differs fn). by destruct (negb _).
Qed.

(** ** Execute *)

Lemma invoked_app (tr1 tr2 : list event) :
  invoked (tr1 ++ tr2) = invoked tr1 ++ invoked tr2.
Proof.
  induction tr1 as [|[lv m|nI fn] tr1 IH]; simpl; [done|done|by rewrite IH].
Qed.

Lemma invoked_log_lines (ls : list line) : invoked (map log_line ls) = [].
Proof. by induction ls. Qed.

Lemma valid_not_null (fn : CallbackT) : valid fn → fn ≠ 0.
Proof. intros Hv ->. discriminate. Qed.

Lemma IsContextSafe_run (cb : ScriptCallback) :
  IsContextSafe cb =
    if ScriptContext.torn_down (m_root_context cb)
    then (Normal false, cb, [Log WARN ContextInvalid])
    else (Normal true, cb, []).
Proof.
  unfold IsContextSafe, ScriptContext.GetResult. run.
  by destruct (ScriptContext.torn_down _).
Qed.

Lemma context_safe_iff (cb : ScriptCallback) :
  context_safe cb ↔ ScriptContext.torn_down (m_root_context cb) = false.
Proof.
  unfold context_safe. rewrite IsContextSafe_run.
  destruct (ScriptContext.torn_down _); unfold result; simpl; split; congruence.
Qed.

Lemma Execute_step_skipped (code : Plugins) (nI : nat) (fn : CallbackT)
    (cb : ScriptCallback) :
  corrupted fn = true →
  Execute_step code nI fn cb =
    (Normal tt, cb,
     [Log ERROR (if bool_decide (fn = 0) then NullInCallback (m_name cb) nI
                 else CorruptedInCallback (m_name cb) nI fn)]).
Proof.
  intros Hc. unfold Execute_step. case_bool_decide; [done|].
  rewrite Hc. by run.
Qed.

Lemma Execute_step_called (code : Plugins) (nI : nat) (fn : CallbackT)
    (cb : ScriptCallback) :
  valid fn →
  Execute_step code nI fn cb =
    match code fn cb with
    | (Normal _, cb1, ls) => (Normal tt, cb1, Invoke nI fn :: map log_line ls)
    | (Thrown, cb1, ls) =>
        (Normal tt,
         on_context (ScriptContext.ThrowNativeError "Exception in callback execution") cb1,
         (Invoke nI fn :: map log_line ls)
           ++ [Log ERROR (ExceptionInCallback (m_name cb1) nI)])
    end.
Proof.
  intros Hv. unfold Execute_step.
  rewrite bool_decide_eq_false_2 by by apply valid_not_null.
  rewrite Hv. unfold call. run.
  destruct (code fn cb) as [[[[]|] cb1] ls]; done.
Qed.

Lemma Execute_step_returns (code : Plugins) (nI : nat) (fn : CallbackT)
    (cb : ScriptCallback) :
  result (Execute_step code nI fn cb) = Normal tt.
Proof.
  destruct (corrupted fn) eqn:Hc.
  - by rewrite Execute_step_skipped.
  - rewrite Execute_step_called by done.
    by destruct (code fn cb) as [[[[]|] cb1] ls].
Qed.

Lemma Execute_step_state (code : Plugins) (nI : nat) (fn : CallbackT)
    (cb : ScriptCallback) :
  state (Execute_step code nI fn cb) = state (Execute_step code 0 fn cb).
Proof.
  destruct (corrupted fn) eqn:Hc.
  - by rewrite !Execute_step_skipped.
  - rewrite !Execute_step_called by done.
    by destruct (code fn cb) as [[[[]|] cb1] ls].
Qed.

Lemma Execute_step_invoked (code : Plugins) (nI : nat) (fn : CallbackT)
    (cb : ScriptCallback) :
  invoked (trace (Execute_step code nI fn cb)) = if corrupted fn then [] else [fn].
Proof.
  destruct (corrupted fn) eqn:Hc.
  - by rewrite Execute_step_skipped.
  - rewrite Execute_step_called by done.
    destruct (code fn cb) as [[[[]|] cb1] ls]; unfold trace; simpl.
    + by rewrite invoked_log_lines.
    + by rewrite invoked_app, invoked_log_lines.
Qed.

Lemma Execute_loop_cons (code : Plugins) (nI : nat) (fn : CallbackT)
    (rest : list CallbackT) (cb : ScriptCallback) :
  Execute_loop code nI (fn :: rest) cb =
    let r := Execute_loop code (S nI) rest (state (Execute_step code nI fn cb)) in
    (result r, state r, trace (Execute_step code nI fn cb) ++ trace r).
Proof.
  simpl. run. pose proof (Execute_step_returns code nI fn cb) as Hr.
  destruct (Execute_step code nI fn cb) as [[[[]|] cb1] tr1]; [|discriminate].
  unfold result, state, trace. simpl.
  by destruct (Execute_loop code (S nI) rest cb1) as [[r cb2] tr2].
Qed.

Lemma Execute_loop_run (code : Plugins) (fns : list CallbackT) :
  ∀ (nI : nat) (cb : ScriptCallback),
    result (Execute_loop code nI fns cb) = Normal tt ∧
    state (Execute_loop code nI fns cb) = after_pass code fns cb ∧
    invoked (trace (Execute_loop code nI fns cb))
      = List.filter (λ fn, negb (corrupted fn)) fns.
Proof.
  induction fns as [|fn rest IH]; intros nI cb; [done|].
  rewrite Execute_loop_cons.
  destruct (IH (S nI) (state (Execute_step code nI fn cb))) as (Hr & Hs & Hi).
  cbv zeta. unfold result, state, trace in *. simpl.
  split; [done|]. split.
  - rewrite Hs. unfold after_pass. simpl.
    by rewrite <- (Execute_step_state code nI fn cb).
  - rewrite invoked_app, Hi.
    pose proof (Execute_step_invoked code nI fn cb) as Hone.
    unfold trace in Hone. rewrite Hone. by destruct (corrupted fn).
Qed.

Lemma filter_valid (fns : list CallbackT) :
  Forall valid fns → List.filter (λ fn, negb (corrupted fn)) fns = fns.
Proof.
  induction 1 as [|fn fns Hv _ IH]; [done|]. simpl. rewrite Hv. simpl.
  by rewrite IH.
Qed.

Lemma Execute_unsafe (code : Plugins) (b : bool) (cb : ScriptCallback) :
  ¬ context_safe cb →
  Execute code b cb =
    (Normal tt,
     on_context
       (ScriptContext.ThrowNativeError
          "ScriptCallback::Execute aborted due to invalid context") cb,
     [Log WARN ContextInvalid; Log WARN (ExecuteAborted (m_name cb))]).
Proof.
  rewrite context_safe_iff. intros Ht%not_false_is_true.
  unfold Execute. run. rewrite IsContextSafe_run, Ht. by run.
Qed.

Lemma Execute_safe (code : Plugins) (b : bool) (cb : ScriptCallback) :
  context_safe cb →
  let r := Execute_loop code 0 (m_functions cb) cb in
  Execute code b cb =
    (Normal tt,
     if b then on_context ScriptContext.Reset (state r) else state r,
     trace r).
Proof.
  rewrite context_safe_iff. intros Ht. cbv zeta.
  destruct (Execute_loop_run code (m_functions cb) 0%nat cb) as (Hr & _ & _).
  unfold Execute, Reset. run. rewrite IsContextSafe_run, Ht. run.
  destruct (Execute_loop code 0 (m_functions cb) cb) as [[r cb1] tr].
  unfold result, state, trace in *. simpl in *. subst r.
  destruct b; simpl; by rewrite app_nil_r.
Qed.

(** ** The listener vector holds valid pointers only *)

Lemma valid_Construct (szName : string) : valid_callback (Construct szName).
Proof. constructor. Qed.

Lemma valid_AddListener (fn : CallbackT) (cb : ScriptCallback) :
  valid_callback cb → valid_callback (state (AddListener fn cb)).
Proof.
  intros Hv. destruct (corrupted fn) eqn:Hc.
  - destruct (decide (fn = 0)) as [->|Hn].
    + by rewrite AddListener_null.
    + by rewrite AddListener_corrupted.
  - rewrite AddListener_accepted by done. unfold valid_callback, state. simpl.
    apply Forall_app. split; [done|]. by constructor.
Qed.

Lemma valid_RemoveListener (fn : CallbackT) (cb : ScriptCallback) :
  valid_callback cb → valid_callback (state (RemoveListener fn cb)).
Proof.
  intros Hv. destruct (decide (fn = 0)) as [->|Hn]; [done|].
  rewrite RemoveListener_run by done. unfold valid_callback, state. simpl.
  apply Forall_forall. intros g [Hg _]%filter_differs_elem.
  by eapply Forall_forall in Hv.
Qed.

Lemma add_all_valid (fns : list CallbackT) :
  Forall valid fns →
  ∀ cb, add_all fns cb = set_functions (m_functions cb ++ fns) cb.
Proof.
  induction 1 as [|fn fns Hv _ IH]; intros cb.
  - simpl. by rewrite app_nil_r, set_functions_same.
  - unfold add_all in *. simpl. rewrite IH, AddListener_accepted by done.
    unfold state, set_functions. simpl. by rewrite <- app_assoc.
Qed.

Lemma add_all_Construct (szName : string) (fns : list CallbackT) :
  Forall valid fns →
  add_all fns (Construct szName) =
    {| m_name := szName; m_functions := fns; m_root_context := ScriptContext.zero |}.
Proof. intros Hv. by rewrite add_all_valid. Qed.

Lemma Execute_invoked (code : Plugins) (b : bool) (cb : ScriptCallback) :
  context_safe cb →
  invoked (trace (Execute code b cb))
    = List.filter (λ fn, negb (corrupted fn)) (m_functions cb).
Proof.
  intros Hs. rewrite (Execute_safe code b cb Hs).
  by destruct (Execute_loop_run code (m_functions cb) 0%nat cb) as (_ & _ & Hi).
Qed.

Lemma Execute_functions (code : Plugins) (b : bool) (cb : ScriptCallback) :
  context_safe cb →
  m_functions (state (Execute code b cb))
    = m_functions (after_pass code (m_functions cb) cb).
Proof.
  intros Hs. rewrite (Execute_safe code b cb Hs).
  destruct (Execute_loop_run code (m_functions cb) 0%nat cb) as (_ & Hst & _).
  unfold state in *. simpl. rewrite <- Hst. by destruct b.
Qed.

Lemma Execute_returns (code : Plugins) (b : bool) (cb : ScriptCallback) :
  result (Execute code b cb) = Normal tt.
Proof.
  destruct (ScriptContext.torn_down (m_root_context cb)) eqn:Ht.
  - rewrite Execute_unsafe; [done|]. rewrite context_safe_iff. congruence.
  - apply context_safe_iff in Ht. by rewrite (Execute_safe code b cb Ht).
Qed.

(** ** CallbackManager *)

Lemma strcmp_is_0_eq (a b : string) : strcmp_is_0 a b = true ↔ a = b.
Proof. apply String.eqb_eq. Qed.

Lemma strcmp_is_0_refl (a : string) : strcmp_is_0 a a = true.
Proof. by apply strcmp_is_0_eq. Qed.

Lemma filter_other_elem (p q : N) (l : list N) :
  q ∈ List.filter (other p) l ↔ q ∈ l ∧ q ≠ p.
Proof.
  rewrite !list_elem_of_In, filter_In. unfold other.
  rewrite negb_true_iff, N.eqb_neq. split; intros [? ?]; split; congruence.
Qed.

Lemma filter_other_absent (p : N) (l : list N) :
  p ∉ l → List.filter (other p) l = l.
Proof.
  induction l as [|y l IH]; [done|]. intros [Hy Hl]%not_elem_of_cons. simpl.
  unfold other at 1. destruct (N.eqb_spec p y) as [->|_]; [done|].
  simpl. by rewrite IH.
Qed.

Lemma filter_other_shorter (p : N) (l : list N) :
  p ∈ l → (length (List.filter (other p) l) < length l)%nat.
Proof.
  induction l as [|y l IH]; [by intros ?%elem_of_nil|].
  intros Hin. simpl. pose proof (filter_length_le (other p) l) as Hle.
  unfold other at 1. destruct (N.eqb_spec p y) as [->|Hne]; simpl; [lia|].
  apply elem_of_cons in Hin as [->|Hin]; [done|]. specialize (IH Hin). lia.
Qed.

Lemma ReleaseCallback_run (p : N) (cb : ScriptCallback) (st : Process) :
  p ≠ nullptr → heap st !! p = Some cb →
  ReleaseCallback p st =
    Some (Normal tt,
          {| heap := delete p (heap st);
             m_managed := List.filter (other p) (m_managed st) |},
          [Log TRACE (Releasing (m_name cb));
           if bool_decide (p ∈ m_managed st) then Log TRACE Released
           else Log WARN (ReleaseNotFound (m_name cb))]).
Proof.
  intros Hn Hcb. unfold ReleaseCallback.
  destruct (N.eqb_spec p nullptr) as [|_]; [done|]. rewrite Hcb.
  unfold ranges_remove_if, erase_to_end.
  change (λ y : N, negb (p =? y)%N) with (other p).
  rewrite length_app, length_drop. case_bool_decide as Hin.
  - pose proof (filter_other_shorter p (m_managed st) Hin) as Hlt.
    set (kept := List.filter (other p) (m_managed st)) in *.
    assert ((length kept =? length kept + (length (m_managed st) - length kept))%nat
            = false) as -> by (apply Nat.eqb_neq; lia).
    simpl. by rewrite take_app_length.
  - rewrite filter_other_absent by done.
    rewrite Nat.sub_diag, Nat.add_0_r, Nat.eqb_refl. simpl.
    by rewrite drop_all, app_nil_r.
Qed.

Lemma FindCallback_loop_ext (h h' : gmap N ScriptCallback) (szName : string)
    (l : list N) :
  (∀ p, p ∈ l → h !! p = h' !! p) →
  FindCallback_loop h szName l = FindCallback_loop h' szName l.
Proof.
  induction l as [|p l IH]; [done|]. intros Hagree. simpl.
  rewrite <- (Hagree p) by apply list_elem_of_here.
  destruct (h !! p) as [cb|]; [|done].
  destruct (strcmp_is_0 _ _); [done|].
  apply IH. intros q Hq. apply Hagree. by apply list_elem_of_further.
Qed.

Lemma FindCallback_loop_app (h : gmap N ScriptCallback) (szName : string)
    (l1 l2 : list N) :
  h !! nullptr = None →
  FindCallback_loop h szName l1 = Some nullptr →
  FindCallback_loop h szName (l1 ++ l2) = FindCallback_loop h szName l2.
Proof.
  intros Hnull. induction l1 as [|p l1 IH]; [done|]. simpl.
  destruct (h !! p) as [cb|] eqn:Hp; [|done].
  destruct (strcmp_is_0 _ _); [|done].
  intros [= ->]. congruence.
Qed.

Lemma FindCallback_loop_found (h : gmap N ScriptCallback) (szName : string)
    (l : list N) (p : N) :
  FindCallback_loop h szName l = Some p → p ≠ nullptr →
  ∃ l1 l2 cb,
    l = l1 ++ p :: l2 ∧ h !! p = Some cb ∧ m_name cb = szName ∧
    ∀ q, q ∈ l1 → ∃ cb', h !! q = Some cb' ∧ m_name cb' ≠ szName.
Proof.
  intros Hfind Hp. induction l as [|q l IH]; [simpl in Hfind; congruence|].
  simpl in Hfind. destruct (h !! q) as [cb|] eqn:Hq; [|done].
  destruct (strcmp_is_0 (m_name cb) szName) eqn:Hcmp.
  - injection Hfind as <-. exists [], l, cb.
    split; [done|]. split; [done|]. split; [by apply strcmp_is_0_eq|].
    by intros q' ?%elem_of_nil.
  - destruct (IH Hfind) as (l1 & l2 & cb' & -> & Hcb' & Hname & Hfirst).
    exists (q :: l1), l2, cb'. split; [done|]. split; [done|]. split; [done|].
    intros q' [->|Hin]%elem_of_cons; [|by apply Hfirst].
    exists cb. split; [done|]. intros Heq%strcmp_is_0_eq. congruence.
Qed.

Lemma FindCallback_loop_missing (h : gmap N ScriptCallback) (szName : string)
    (l : list N) :
  h !! nullptr = None →
  FindCallback_loop h szName l = Some nullptr →
  ∀ q, q ∈ l → ∃ cb, h !! q = Some cb ∧ m_name cb ≠ szName.
Proof.
  intros Hnull. induction l as [|p l IH]; [by intros _ q ?%elem_of_nil|].
  simpl. destruct (h !! p) as [cb|] eqn:Hp; [|done].
  destruct (strcmp_is_0 (m_name cb) szName) eqn:Hcmp; [intros [= ->]; congruence|].
  intros Hrest q [->|Hin]%elem_of_cons; [|by apply IH].
  exists cb. split; [done|]. intros Heq%strcmp_is_0_eq. congruence.
Qed.

Lemma FindCallback_loop_total (h : gmap N ScriptCallback) (szName : string)
    (l : list N) :
  (∀ p, p ∈ l → is_Some (h !! p)) → is_Some (FindCallback_loop h szName l).
Proof.
  induction l as [|p l IH]; [by eexists|]. intros Hlive. simpl.
  destruct (Hlive p) as [cb ->]; [apply list_elem_of_here|].
  destruct (strcmp_is_0 _ _); [by eexists|].
  apply IH. intros q Hq. apply Hlive. by apply list_elem_of_further.
Qed.

(** The manager's invariant holds at start-up and after every operation. *)

Lemma managed_ok_startup : managed_ok startup.
Proof.
  split; [done|]. split; [constructor|]. by intros p ?%elem_of_nil.
Qed.

Lemma managed_ok_CreateCallback `{Allocator} (szName : string) (st : Process) :
  managed_ok st → managed_ok (CreateCallback szName st).1.2.
Proof.
  intros (Hnull & Hnd & Hlive). unfold CreateCallback, push_back. simpl.
  destruct (operator_new_fresh (heap st)) as [Hp Hfree].
  unfold managed_ok. simpl.
  split; [by rewrite lookup_insert_ne|]. split.
  - apply NoDup_app. split; [done|]. split; [|apply NoDup_singleton].
    intros q Hq ->%list_elem_of_singleton.
    destruct (Hlive _ Hq) as [cb Hcb]. congruence.
  - intros q [Hq| ->%list_elem_of_singleton]%elem_of_app.
    + destruct (decide (operator_new (heap st) = q)) as [<-|Hne].
      * rewrite lookup_insert_eq. by eexists.
      * rewrite lookup_insert_ne by done. by apply Hlive.
    + rewrite lookup_insert_eq. by eexists.
Qed.

Lemma managed_ok_ReleaseCallback (p : N) (st st' : Process) (tr : list event) :
  managed_ok st → ReleaseCallback p st = Some (Normal tt, st', tr) →
  managed_ok st'.
Proof.
  intros (Hnull & Hnd & Hlive) Hrel.
  destruct (decide (p = nullptr)) as [->|Hp].
  { unfold ReleaseCallback in Hrel. simpl in Hrel. by injection Hrel as <- _. }
  destruct (heap st !! p) as [cb|] eqn:Hcb.
  2: { unfold ReleaseCallback in Hrel.
       destruct (N.eqb_spec p nullptr); [done|]. by rewrite Hcb in Hrel. }
  rewrite (ReleaseCallback_run p cb st Hp Hcb) in Hrel. injection Hrel as <- _.
  unfold managed_ok. simpl.
  split; [by rewrite lookup_delete_ne|]. split.
  - apply NoDup_ListNoDup, List.NoDup_filter, NoDup_ListNoDup, Hnd.
  - intros q [Hq Hne]%filter_other_elem.
    rewrite lookup_delete_ne by done. by apply Hlive.
Qed.

Lemma FindCallback_loop_app_found (h : gmap N ScriptCallback) (szName : string)
    (l1 l2 : list N) (p : N) :
  FindCallback_loop h szName l1 = Some p → p ≠ nullptr →
  FindCallback_loop h szName (l1 ++ l2) = Some p.
Proof.
  intros Hfind Hp. induction l1 as [|q l1 IH]; [simpl in Hfind; congruence|].
  simpl in *. destruct (h !! q) as [cb|]; [|done].
  destruct (strcmp_is_0 _ _); [done|]. by apply IH.
Qed.

Lemma FindCallback_live (szName : string) (st : Process) (p : N) :
  FindCallback szName st = Some p → p ≠ nullptr →
  ∃ cb, heap st !! p = Some cb ∧ m_name cb = szName.
Proof.
  intros Hfind Hp.
  destruct (FindCallback_loop_found _ _ _ _ Hfind Hp) as (_ & _ & cb & _ & ? & ? & _).
  by exists cb.
Qed.

Lemma Process_eta (st : Process) :
  {| heap := heap st; m_managed := m_managed st |} = st.
Proof. by destruct st. Qed.

Lemma AddListener_rejected (fn : CallbackT) (cb : ScriptCallback) :
  corrupted fn = true →
  AddListener fn cb =
    (Normal tt, cb,
     [Log ERROR (if bool_decide (fn = 0) then AddNull (m_name cb)
                 else AddCorrupted fn (m_name cb))]).
Proof.
  intros Hc. case_bool_decide as Hn.
  - subst fn. apply AddListener_null.
  - by apply AddListener_corrupted.
Qed.

Lemma AddListener_returns (fn : CallbackT) (cb : ScriptCallback) :
  result (AddListener fn cb) = Normal tt.
Proof.
  destruct (corrupted fn) eqn:Hc.
  - by rewrite AddListener_rejected.
  - by rewrite AddListener_accepted.
Qed.

(** * The dispatcher's contract *)

(** C1. A pass of [Execute] whose context passes the probe calls exactly the
    listeners that the vector held when the pass started, in their order,
    whatever the listeners do to the vector meanwhile: a pointer that was not
    in the vector is not called, even if a listener adds it, and a pointer
    that was in it is called, even if a listener removes it first. The vector
    after the pass is the one the listeners left, and it is what the next
    pass calls. *)
Theorem Execute_invokes_snapshot (code : Plugins) (b b' : bool) (cb : ScriptCallback) :
  context_safe cb →
  valid_callback cb →
  let r := Execute code b cb in
  invoked (trace r) = m_functions cb ∧
  (∀ fn, fn ∉ m_functions cb → fn ∉ invoked (trace r)) ∧
  (∀ fn, fn ∈ m_functions cb → fn ∈ invoked (trace r)) ∧
  m_functions (state r) = m_functions (after_pass code (m_functions cb) cb) ∧
  (context_safe (state r) → valid_callback (state r) →
   invoked (trace (Execute code b' (state r))) = m_functions (state r)).
Proof.
  intros Hs Hv r.
  assert (invoked (trace r) = m_functions cb) as Hi.
  { subst r. rewrite Execute_invoked by done. by apply filter_valid. }
  split; [done|]. rewrite Hi. split; [done|]. split; [done|]. split.
  - by apply Execute_functions.
  - intros Hs' Hv'. rewrite Execute_invoked by done. by apply filter_valid.
Qed.

(** [fnA] adds [fnC] while it runs: the pass calls [fnA] and [fnB] only, the
    next pass calls [fnC] as well. *)
Lemma Execute_invokes_snapshot_witness :
  let r := Execute Session.adds false (Session.round_start [Session.fnA; Session.fnB]) in
  invoked (trace r) = [Session.fnA; Session.fnB] ∧
  m_functions (state r) = [Session.fnA; Session.fnB; Session.fnC] ∧
  invoked (trace (Execute Session.adds false (state r)))
    = [Session.fnA; Session.fnB; Session.fnC].
Proof.
  destruct (Execute_invokes_snapshot Session.adds false false
              (Session.round_start [Session.fnA; Session.fnB]))
    as (H1 & _ & _ & H4 & H5).
  - reflexivity.
  - repeat constructor.
  - split; [exact H1|]. split; [exact H4|].
    apply H5; [reflexivity | repeat constructor].
Defined.

(** The example of the specification: [fnA] removes [fnB] before [fnB] has
    run; the pass still calls both, the next pass calls [fnA] only. *)
Example reentrant_remove_takes_effect_next_pass :
  let r := Execute Session.removes false (Session.round_start [Session.fnA; Session.fnB]) in
  invoked (trace r) = [Session.fnA; Session.fnB] ∧
  m_functions (state r) = [Session.fnA] ∧
  invoked (trace (Execute Session.removes false (state r))) = [Session.fnA].
Proof. vm_compute. done. Qed.

(** C2. [Execute] always returns to its caller. In a pass that the probe lets
    through every valid entry of the snapshot is called, whichever of the
    listeners throw. A listener that throws is caught where it was called:
    the error is signalled through the context, the error line is written,
    and the loop goes on from the state the listener left. *)
Theorem Execute_isolates_faults (code : Plugins) (b : bool) (cb : ScriptCallback) :
  result (Execute code b cb) = Normal tt ∧
  (context_safe cb →
   invoked (trace (Execute code b cb))
     = List.filter (λ fn, negb (corrupted fn)) (m_functions cb)) ∧
  (∀ (nI : nat) (fn : CallbackT) (rest : list CallbackT)
     (s s1 : ScriptCallback) (ls : list line),
     valid fn → code fn s = (Thrown, s1, ls) →
     let s2 := on_context
                 (ScriptContext.ThrowNativeError "Exception in callback execution") s1 in
     Execute_step code nI fn s =
       (Normal tt, s2,
        (Invoke nI fn :: map log_line ls)
          ++ [Log ERROR (ExceptionInCallback (m_name s1) nI)]) ∧
     Execute_loop code nI (fn :: rest) s =
       (Normal tt, state (Execute_loop code (S nI) rest s2),
        ((Invoke nI fn :: map log_line ls)
           ++ [Log ERROR (ExceptionInCallback (m_name s1) nI)])
          ++ trace (Execute_loop code (S nI) rest s2))).
Proof.
  split; [apply Execute_returns|]. split; [apply Execute_invoked|].
  intros nI fn rest s s1 ls Hv Hc s2.
  assert (Execute_step code nI fn s =
            (Normal tt, s2,
             (Invoke nI fn :: map log_line ls)
               ++ [Log ERROR (ExceptionInCallback (m_name s1) nI)])) as Hstep.
  { rewrite Execute_step_called by done. by rewrite Hc. }
  split; [done|].
  destruct (Execute_loop_run code rest (S nI) s2) as (Hr & _ & _).
  rewrite Execute_loop_cons, Hstep. cbv zeta.
  unfold result, state, trace in *. simpl. by rewrite Hr.
Qed.

(** Listener 2 of 3 throws: all three are called, the fault is logged and
    signalled, and [Execute] returns. *)
Lemma Execute_isolates_faults_witness :
  let cb := Session.round_start [Session.fnA; Session.fnB; Session.fnC] in
  let r := Execute Session.faults false cb in
  result r = Normal tt ∧
  invoked (trace r) = [Session.fnA; Session.fnB; Session.fnC] ∧
  Execute_step Session.faults 1 Session.fnB cb =
    (Normal tt,
     on_context (ScriptContext.ThrowNativeError "Exception in callback execution") cb,
     [Invoke 1 Session.fnB; Log ERROR (ExceptionInCallback "round_start" 1)]).
Proof.
  intros cb.
  destruct (Execute_isolates_faults Session.faults false cb) as (H1 & H2 & H3).
  split; [exact H1|]. split; [exact (H2 eq_refl)|].
  destruct (H3 1%nat Session.fnB [] cb cb []) as [Hstep _];
    [reflexivity | reflexivity | exact Hstep].
Defined.

(** C3. Valid pointers added one after the other to a new callback are
    called by [Execute] in the order they were added, each as many times as
    it was added: a pointer added twice is called twice. *)
Theorem Execute_in_order_added (szName : string) (fns : list CallbackT)
    (code : Plugins) (b : bool) :
  Forall valid fns →
  let cb := add_all fns (Construct szName) in
  m_functions cb = fns ∧
  invoked (trace (Execute code b cb)) = fns ∧
  (∀ fn, fns = [fn; fn] → invoked (trace (Execute code b cb)) = [fn; fn]) ∧
  (∀ fn, count_occ Z.eq_dec (invoked (trace (Execute code b cb))) fn
         = count_occ Z.eq_dec fns fn).
Proof.
  intros Hv cb. subst cb. rewrite add_all_Construct by done.
  assert (invoked (trace (Execute code b
            {| m_name := szName; m_functions := fns;
               m_root_context := ScriptContext.zero |})) = fns) as Hi.
  { rewrite Execute_invoked by done. by apply filter_valid. }
  rewrite Hi. split; [done|]. split; [done|]. split; [by intros fn ->|done].
Qed.

Lemma Execute_in_order_added_witness :
  let cb := add_all [Session.fnB; Session.fnA; Session.fnB] (Construct "round_start") in
  m_functions cb = [Session.fnB; Session.fnA; Session.fnB] ∧
  invoked (trace (Execute Session.quiet true cb))
    = [Session.fnB; Session.fnA; Session.fnB].
Proof.
  destruct (Execute_in_order_added "round_start"
              [Session.fnB; Session.fnA; Session.fnB] Session.quiet true)
    as (H1 & H2 & _).
  - repeat constructor.
  - split; [exact H1 | exact H2].
Defined.

(** C4 as the code has it. [AddListener] is a [void] function: it hands no
    status back. Given a null pointer, or an address below [0x1000] or with
    one of the bits 56 to 63 set, it writes an error line and leaves the
    callback as it was; given any other address it appends it to the end of
    the listener vector and writes a trace line. *)
Theorem AddListener_spec (fn : CallbackT) (cb : ScriptCallback) :
  is_uintptr fn →
  (fn = 0 →
   AddListener fn cb = (Normal tt, cb, [Log ERROR (AddNull (m_name cb))])) ∧
  (fn ≠ 0 → (fn < 0x1000 ∨ ∃ i, 56 ≤ i < 64 ∧ Z.testbit fn i = true) →
   AddListener fn cb = (Normal tt, cb, [Log ERROR (AddCorrupted fn (m_name cb))])) ∧
  (0x1000 ≤ fn → (∀ i, 56 ≤ i < 64 → Z.testbit fn i = false) →
   AddListener fn cb =
     (Normal tt, set_functions (m_functions cb ++ [fn]) cb,
      [Log TRACE (Added fn (m_name cb))])).
Proof.
  intros Hp. split; [|split].
  - intros ->. apply AddListener_null.
  - intros Hn Hc. apply AddListener_corrupted; [done|]. by apply corrupted_true.
  - intros Hlo Hhi. apply AddListener_accepted. by apply corrupted_false.
Qed.

Lemma AddListener_spec_witness :
  let cb := Session.round_start [Session.fnA] in
  AddListener 0 cb = (Normal tt, cb, [Log ERROR (AddNull "round_start")]) ∧
  AddListener 0x180000001400000 cb
    = (Normal tt, cb, [Log ERROR (AddCorrupted 0x180000001400000 "round_start")]) ∧
  AddListener Session.fnB cb
    = (Normal tt, Session.round_start [Session.fnA; Session.fnB],
       [Log TRACE (Added Session.fnB "round_start")]).
Proof.
  intros cb. split; [|split].
  - apply (AddListener_spec 0 cb); [unfold is_uintptr; lia | reflexivity].
  - apply (AddListener_spec 0x180000001400000 cb);
      [unfold is_uintptr; lia | lia |].
    right. exists 56. split; [lia | reflexivity].
  - apply (AddListener_spec Session.fnB cb);
      [unfold is_uintptr, Session.fnB; lia | unfold Session.fnB; lia |].
    intros i Hi.
    assert (i = 56 ∨ i = 57 ∨ i = 58 ∨ i = 59 ∨ i = 60 ∨ i = 61 ∨ i = 62 ∨ i = 63)
      as Hc by lia.
    destruct Hc as [->|[->|[->|[->|[->|[->|[->| ->]]]]]]]; reflexivity.
Defined.

(** C4 as stated fails: what [AddListener] returns for a rejected pointer
    and for an accepted one is the same, so no reading of it tells failure
    from success. *)
Lemma AddListener_returns_no_status :
  ¬ ∃ succeeded : outcome unit → bool,
      succeeded (result (AddListener 0 (Construct "round_start"))) = false ∧
      succeeded (result (AddListener Session.fnA (Construct "round_start"))) = true.
Proof.
  intros (succeeded & Hrej & Hacc).
  change (result (AddListener 0 (Construct "round_start"))) with (Normal tt) in Hrej.
  change (result (AddListener Session.fnA (Construct "round_start")))
    with (Normal tt) in Hacc.
  congruence.
Qed.

(** C5. [RemoveListener] of a null pointer writes a warning, returns false
    and leaves the callback as it was. Of a pointer that is not in the
    listener vector it returns false and leaves the callback as it was. Of a
    pointer that is in it, once or more, it returns true and leaves the
    vector without any occurrence of the pointer, the other entries in their
    order. *)
Theorem RemoveListener_spec (fn : CallbackT) (cb : ScriptCallback) :
  (fn = 0 →
   RemoveListener fn cb = (Normal false, cb, [Log WARN (RemoveNull (m_name cb))])) ∧
  (fn ≠ 0 → fn ∉ m_functions cb →
   RemoveListener fn cb = (Normal false, cb, [])) ∧
  (fn ≠ 0 → fn ∈ m_functions cb →
   RemoveListener fn cb =
     (Normal true, set_functions (List.filter (differs fn) (m_functions cb)) cb,
      [Log TRACE (Removed fn (m_name cb))]) ∧
   (fn ∉ m_functions (state (RemoveListener fn cb))) ∧
   ∀ g, g ≠ fn →
     count_occ Z.eq_dec (m_functions (state (RemoveListener fn cb))) g
       = count_occ Z.eq_dec (m_functions cb) g).
Proof.
  split; [|split].
  - by intros ->.
  - intros Hn Hout. rewrite RemoveListener_run by done. cbv zeta.
    rewrite filter_differs_absent by done.
    by rewrite Nat.eqb_refl, set_functions_same.
  - intros Hn Hin. rewrite RemoveListener_run by done. cbv zeta.
    pose proof (filter_differs_length fn (m_functions cb) Hin) as Hlt.
    apply Nat.lt_neq, Nat.eqb_neq in Hlt. rewrite Hlt. simpl.
    split; [done|]. unfold state. simpl. split.
    + rewrite filter_differs_elem. tauto.
    + intros g Hg. by apply filter_differs_count.
Qed.

Lemma RemoveListener_spec_witness :
  let cb := Session.round_start [Session.fnA; Session.fnB; Session.fnA] in
  RemoveListener Session.fnA cb =
    (Normal true, Session.round_start [Session.fnB],
     [Log TRACE (Removed Session.fnA "round_start")]) ∧
  RemoveListener Session.fnC cb = (Normal false, cb, []) ∧
  RemoveListener 0 cb = (Normal false, cb, [Log WARN (RemoveNull "round_start")]).
Proof.
  intros cb.
  destruct (RemoveListener_spec Session.fnA cb) as (_ & _ & H3).
  destruct (RemoveListener_spec Session.fnC cb) as (_ & H2 & _).
  destruct (RemoveListener_spec 0 cb) as (H1 & _ & _).
  split; [|split].
  - apply H3; [done|]. vm_compute. left.
  - apply H2; [done|]. vm_compute. intros H. by repeat (apply elem_of_cons in H as [H|H]; [done|]); apply elem_of_nil in H.
  - by apply H1.
Defined.

(** C6. When the probe finds the context unusable, [Execute] signals the
    error through the context, writes its warning and returns: no listener
    is called and the listener vector is the one it was. *)
Theorem Execute_aborts_on_unsafe_context (code : Plugins) (b : bool)
    (cb : ScriptCallback) :
  result (IsContextSafe cb) = Normal false →
  let r := Execute code b cb in
  result r = Normal tt ∧
  invoked (trace r) = [] ∧
  m_functions (state r) = m_functions cb ∧
  state r = on_context
              (ScriptContext.ThrowNativeError
                 "ScriptCallback::Execute aborted due to invalid context") cb ∧
  ScriptContext.native_error (m_root_context (state r))
    = Some "ScriptCallback::Execute aborted due to invalid context" ∧
  trace r = [Log WARN ContextInvalid; Log WARN (ExecuteAborted (m_name cb))].
Proof.
  intros Hprobe r. subst r.
  rewrite Execute_unsafe; [done|].
  unfold context_safe. rewrite Hprobe. congruence.
Qed.

Lemma Execute_aborts_on_unsafe_context_witness :
  let cb := set_context Session.torn (Session.round_start [Session.fnA; Session.fnB]) in
  let r := Execute Session.quiet true cb in
  invoked (trace r) = [] ∧ m_functions (state r) = [Session.fnA; Session.fnB].
Proof.
  intros cb.
  destruct (Execute_aborts_on_unsafe_context Session.quiet true cb)
    as (_ & H2 & H3 & _).
  - reflexivity.
  - split; [exact H2 | exact H3].
Defined.

(** C9 as the code has it. [Reset] puts the context in its zero state, and a
    second [Reset] changes nothing. [Execute(true)] on a callback whose
    context passes the probe ends with the context in its zero state, from
    which the result slot reads as zero. *)
Theorem Reset_restores_zero (code : Plugins) (cb : ScriptCallback) :
  m_root_context (state (Reset cb)) = ScriptContext.zero ∧
  Reset (state (Reset cb)) = Reset cb ∧
  (context_safe cb →
   m_root_context (state (Execute code true cb)) = ScriptContext.zero ∧
   @ScriptContext.GetResult unit (m_root_context (state (Execute code true cb))) tt
     = (Normal 0, tt, [])).
Proof.
  split; [done|]. split; [done|].
  intros Hs. rewrite (Execute_safe code true cb Hs). done.
Qed.

Lemma Reset_restores_zero_witness :
  let cb := Session.round_start [Session.fnA; Session.fnB; Session.fnC] in
  m_root_context (state (Execute Session.faults true cb)) = ScriptContext.zero.
Proof.
  intros cb.
  destruct (Reset_restores_zero Session.faults cb) as (_ & _ & H3).
  by destruct (H3 eq_refl) as [H _].
Defined.

(** C9 as stated fails: on a callback whose context does not pass the probe,
    [Execute(true)] returns before it reaches [Reset]; the context is not in
    its zero state and reading it still faults. *)
Lemma Execute_reset_skipped_on_abort :
  let cb := set_context Session.torn (Session.round_start [Session.fnA]) in
  let c := m_root_context (state (Execute Session.quiet true cb)) in
  c ≠ ScriptContext.zero ∧
  result (@ScriptContext.GetResult unit c tt) = Thrown.
Proof. split; [discriminate | reflexivity]. Qed.

(** C7. [CreateCallback] allocates a callback at an address that is not null
    and not in use, puts it at the end of [m_managed], and does so again for
    a name already taken. [FindCallback] is defined on such a manager and
    returns the first address of [m_managed] whose callback has the name
    asked for. So after two
    callbacks of one name are created, [FindCallback] returns the first of
    them (or the older callback of that name, had there been one), and once
    the first is released it returns the second. *)
Theorem FindCallback_first_created `{Allocator} (szName : string) (st : Process) :
  managed_ok st →
  let c1 := CreateCallback szName st in
  let p1 := c1.1.1 in
  let st1 := c1.1.2 in
  let c2 := CreateCallback szName st1 in
  let p2 := c2.1.1 in
  let st2 := c2.1.2 in
  (∀ name, is_Some (FindCallback name st) ∧ is_Some (FindCallback name st2)) ∧
  (p1 ≠ nullptr ∧ heap st !! p1 = None ∧
   heap st1 !! p1 = Some (Construct szName) ∧
   m_managed st1 = m_managed st ++ [p1]) ∧
  (p2 ≠ nullptr ∧ p2 ≠ p1 ∧ heap st1 !! p2 = None ∧
   heap st2 !! p1 = Some (Construct szName) ∧
   heap st2 !! p2 = Some (Construct szName) ∧
   m_managed st2 = m_managed st ++ [p1; p2]) ∧
  (∀ (st' : Process) (name : string) (p : N),
     FindCallback name st' = Some p → p ≠ nullptr →
     ∃ l1 l2 cb,
       m_managed st' = l1 ++ p :: l2 ∧
       heap st' !! p = Some cb ∧ m_name cb = name ∧
       ∀ q, q ∈ l1 → ∃ cb', heap st' !! q = Some cb' ∧ m_name cb' ≠ name) ∧
  (∀ p0, FindCallback szName st = Some p0 → p0 ≠ nullptr →
     FindCallback szName st2 = Some p0) ∧
  (FindCallback szName st = Some nullptr →
   FindCallback szName st2 = Some p1 ∧
   ∃ st3 tr,
     ReleaseCallback p1 st2 = Some (Normal tt, st3, tr) ∧
     heap st3 !! p1 = None ∧
     m_managed st3 = m_managed st ++ [p2] ∧
     FindCallback szName st3 = Some p2).
Proof.
  intros Hok.
  assert (∀ name,
            is_Some (FindCallback name st) ∧
            is_Some (FindCallback name
                       (CreateCallback szName (CreateCallback szName st).1.2).1.2))
    as Htotal.
  { intros name. split; apply FindCallback_loop_total.
    - by destruct Hok as (_ & _ & Hlive).
    - by destruct (managed_ok_CreateCallback szName _
                     (managed_ok_CreateCallback szName st Hok)) as (_ & _ & Hlive). }
  destruct Hok as (Hnull & Hnd & Hlive). cbv zeta. split; [exact Htotal|].
  clear Htotal. unfold CreateCallback, push_back. simpl.
  set (h := heap st). set (p1 := operator_new h).
  set (h1 := <[p1:=Construct szName]> h). set (p2 := operator_new h1).
  set (h2 := <[p2:=Construct szName]> h1).
  destruct (operator_new_fresh h) as [Hp1 Hfree1]. fold p1 in Hp1, Hfree1.
  destruct (operator_new_fresh h1) as [Hp2 Hfree2]. fold p2 in Hp2, Hfree2.
  assert (p2 ≠ p1) as Hne.
  { intros Heq. rewrite Heq in Hfree2. subst h1.
    by rewrite lookup_insert_eq in Hfree2. }
  assert (∀ q, q ∈ m_managed st → q ≠ p1 ∧ q ≠ p2) as Hold.
  { intros q Hq. destruct (Hlive q Hq) as [cb Hcb]. fold h in Hcb.
    split; intros ->; [congruence|].
    subst h1. rewrite lookup_insert_ne in Hfree2 by congruence. congruence. }
  assert (∀ q, q ∈ m_managed st → h !! q = h2 !! q) as Hagree.
  { intros q Hq. destruct (Hold q Hq). subst h2 h1.
    by rewrite !lookup_insert_ne. }
  assert (h2 !! p1 = Some (Construct szName)) as Hh2p1.
  { subst h2 h1. by rewrite lookup_insert_ne, lookup_insert_eq. }
  assert (h2 !! p2 = Some (Construct szName)) as Hh2p2.
  { subst h2. by rewrite lookup_insert_eq. }
  split; [|split; [|split; [|split]]].
  - subst h1. by rewrite lookup_insert_eq.
  - by rewrite <- app_assoc.
  - intros st' name p Hfind Hp. by apply FindCallback_loop_found.
  - intros p0 Hfind Hp0. unfold FindCallback in *. simpl.
    rewrite <- app_assoc. apply FindCallback_loop_app_found; [|done].
    by rewrite <- (FindCallback_loop_ext h h2).
  - intros Hfind. unfold FindCallback in *. simpl. fold h in Hfind.
    assert (h2 !! nullptr = None) as Hnull2.
    { subst h2 h1. by rewrite !lookup_insert_ne. }
    split.
    + rewrite <- app_assoc. rewrite FindCallback_loop_app; [| done |].
      * simpl. by rewrite Hh2p1, strcmp_is_0_refl.
      * by rewrite <- (FindCallback_loop_ext h h2).
    + eexists _, _. split.
      { by apply (ReleaseCallback_run p1 (Construct szName)). }
      simpl. split; [apply lookup_delete_eq|].
      assert (List.filter (other p1) ((m_managed st ++ [p1]) ++ [p2])
              = m_managed st ++ [p2]) as Hfilter.
      { rewrite !List.filter_app. simpl. unfold other at 2 3.
        rewrite N.eqb_refl. simpl.
        destruct (N.eqb_spec p1 p2) as [|_]; [congruence|]. simpl.
        rewrite app_nil_r. f_equal. apply filter_other_absent.
        intros Hin. by destruct (Hold p1 Hin). }
      rewrite Hfilter. split; [done|].
      rewrite FindCallback_loop_app.
      * simpl. rewrite lookup_delete_ne by done.
        by rewrite Hh2p2, strcmp_is_0_refl.
      * by rewrite lookup_delete_ne.
      * rewrite <- Hfind. symmetry. apply FindCallback_loop_ext.
        intros q Hq. destruct (Hold q Hq).
        rewrite lookup_delete_ne by done. by apply Hagree.
Qed.

Lemma FindCallback_first_created_witness :
  let c1 := CreateCallback "round_start" startup in
  let c2 := CreateCallback "round_start" c1.1.2 in
  c2.1.1 ≠ c1.1.1 ∧
  FindCallback "round_start" c2.1.2 = Some c1.1.1 ∧
  ∃ st3 tr,
    ReleaseCallback c1.1.1 c2.1.2 = Some (Normal tt, st3, tr) ∧
    FindCallback "round_start" st3 = Some c2.1.1.
Proof.
  destruct (FindCallback_first_created "round_start" startup)
    as (_ & _ & (_ & Hne & _) & _ & _ & Hfirst).
  - split; [reflexivity|]. split; [constructor|]. intros p Hp.
    by apply elem_of_nil in Hp.
  - destruct (Hfirst eq_refl) as (Hfind & st3 & tr & Hrel & _ & _ & Hfind3).
    split; [exact Hne|]. split; [exact Hfind|].
    exists st3, tr. split; [exact Hrel | exact Hfind3].
Defined.

(** C8. [ReleaseCallback] of a null pointer writes a warning and changes
    nothing. Of the address of a live callback that is in [m_managed] it
    takes the address out of [m_managed] and deletes the callback. Of the
    address of a live callback that is not in [m_managed] it writes a
    warning and deletes the callback all the same; [m_managed] is as it
    was. *)
Theorem ReleaseCallback_spec (pCallback : N) (st : Process) :
  (pCallback = nullptr →
   ReleaseCallback pCallback st = Some (Normal tt, st, [Log WARN ReleaseNull])) ∧
  (∀ cb, pCallback ≠ nullptr → heap st !! pCallback = Some cb →
     pCallback ∈ m_managed st →
     ∃ st',
       ReleaseCallback pCallback st =
         Some (Normal tt, st',
               [Log TRACE (Releasing (m_name cb)); Log TRACE Released]) ∧
       heap st' = delete pCallback (heap st) ∧
       heap st' !! pCallback = None ∧
       m_managed st' = List.filter (other pCallback) (m_managed st) ∧
       (pCallback ∉ m_managed st') ∧
       (∀ q, q ≠ pCallback → q ∈ m_managed st' ↔ q ∈ m_managed st)) ∧
  (∀ cb, pCallback ≠ nullptr → heap st !! pCallback = Some cb →
     pCallback ∉ m_managed st →
     ReleaseCallback pCallback st =
       Some (Normal tt,
             {| heap := delete pCallback (heap st); m_managed := m_managed st |},
             [Log TRACE (Releasing (m_name cb));
              Log WARN (ReleaseNotFound (m_name cb))]) ∧
     delete pCallback (heap st) !! pCallback = None).
Proof.
  split; [|split].
  - by intros ->.
  - intros cb Hp Hcb Hin. eexists. split.
    { rewrite (ReleaseCallback_run pCallback cb st Hp Hcb).
      by rewrite bool_decide_eq_true_2. }
    simpl. split; [done|]. split; [apply lookup_delete_eq|]. split; [done|].
    split.
    + rewrite filter_other_elem. tauto.
    + intros q Hq. rewrite filter_other_elem. tauto.
  - intros cb Hp Hcb Hout. split; [|apply lookup_delete_eq].
    rewrite (ReleaseCallback_run pCallback cb st Hp Hcb).
    by rewrite bool_decide_eq_false_2, filter_other_absent.
Qed.

Lemma ReleaseCallback_spec_witness :
  ReleaseCallback nullptr one_callback
    = Some (Normal tt, one_callback, [Log WARN ReleaseNull]) ∧
  (∃ st', ReleaseCallback 1 one_callback =
            Some (Normal tt, st',
                  [Log TRACE (Releasing "round_start"); Log TRACE Released]) ∧
          m_managed st' = [] ∧ heap st' !! 1%N = None) ∧
  ReleaseCallback 2 one_callback =
    Some (Normal tt,
          {| heap := delete 2%N (heap one_callback); m_managed := [1%N] |},
          [Log TRACE (Releasing "round_start");
           Log WARN (ReleaseNotFound "round_start")]).
Proof.
  destruct (ReleaseCallback_spec nullptr one_callback) as (H1 & _ & _).
  destruct (ReleaseCallback_spec 1%N one_callback) as (_ & H2 & _).
  destruct (ReleaseCallback_spec 2%N one_callback) as (_ & _ & H3).
  split; [by apply H1|]. split.
  - destruct (H2 (Session.round_start [Session.fnA])) as (st' & Hrel & _ & Hgone & Hm & _).
    + done.
    + reflexivity.
    + apply list_elem_of_here.
    + exists st'. split; [exact Hrel|]. split; [exact Hm | exact Hgone].
  - destruct (H3 (Construct "round_start")) as [Hrel _].
    + done.
    + reflexivity.
    + intros Hin. apply list_elem_of_singleton in Hin. discriminate.
    + exact Hrel.
Defined.

(** C10. What [TryAddFunction] returns tells whether [FindCallback] found a
    callback of that name, and nothing else: with a callback found it is
    true for every pointer, also for a null pointer or an address that fails
    the test, for which the process stays as it was but for the error
    line. *)
Theorem TryAddFunction_reports_lookup_only (szName : string) (fn : CallbackT)
    (st : Process) (p : N) :
  FindCallback szName st = Some p →
  (p = nullptr → TryAddFunction szName fn st = Some (Normal false, st, [])) ∧
  (p ≠ nullptr →
   ∃ cb, heap st !! p = Some cb ∧ m_name cb = szName ∧
     TryAddFunction szName fn st =
       Some (Normal true,
             {| heap := <[p := state (AddListener fn cb)]> (heap st);
                m_managed := m_managed st |},
             trace (AddListener fn cb)) ∧
     (corrupted fn = true →
      m_functions (state (AddListener fn cb)) = m_functions cb ∧
      TryAddFunction szName fn st =
        Some (Normal true, st,
              [Log ERROR (if bool_decide (fn = 0) then AddNull szName
                          else AddCorrupted fn szName)]))).
Proof.
  intros Hfind. split.
  - intros ->. unfold TryAddFunction. by rewrite Hfind.
  - intros Hp. destruct (FindCallback_live szName st p Hfind Hp) as (cb & Hcb & Hname).
    exists cb. split; [done|]. split; [done|].
    assert (TryAddFunction szName fn st =
              Some (Normal true,
                    {| heap := <[p := state (AddListener fn cb)]> (heap st);
                       m_managed := m_managed st |},
                    trace (AddListener fn cb))) as Hrun.
    { unfold TryAddFunction, on_callback. rewrite Hfind.
      destruct (N.eqb_spec p nullptr) as [|_]; [done|]. simpl. rewrite Hcb.
      pose proof (AddListener_returns fn cb) as Hr.
      destruct (AddListener fn cb) as [[r cb1] tr].
      unfold result in Hr. simpl in Hr. by subst r. }
    split; [done|]. intros Hc. rewrite Hrun.
    rewrite (AddListener_rejected fn cb Hc). unfold state, trace. simpl.
    split; [done|]. by rewrite insert_id, Process_eta, Hname.
Qed.

Lemma TryAddFunction_reports_lookup_only_witness :
  TryAddFunction "round_start" 0 one_callback
    = Some (Normal true, one_callback, [Log ERROR (AddNull "round_start")]) ∧
  TryAddFunction "round_start" 0x180000001400000 one_callback
    = Some (Normal true, one_callback,
            [Log ERROR (AddCorrupted 0x180000001400000 "round_start")]) ∧
  TryAddFunction "round_end" Session.fnA one_callback
    = Some (Normal false, one_callback, []).
Proof.
  destruct (TryAddFunction_reports_lookup_only "round_start" 0 one_callback 1%N)
    as [_ H1]; [reflexivity|].
  destruct (TryAddFunction_reports_lookup_only "round_start" 0x180000001400000
              one_callback 1%N) as [_ H2]; [reflexivity|].
  destruct (TryAddFunction_reports_lookup_only "round_end" Session.fnA
              one_callback nullptr) as [H3 _]; [reflexivity|].
  split; [|split].
  - destruct H1 as (cb & _ & _ & _ & Hrej); [done|].
    by destruct (Hrej eq_refl) as [_ Hrun].
  - destruct H2 as (cb & _ & _ & _ & Hrej); [done|].
    by destruct (Hrej eq_refl) as [_ Hrun].
  - by apply H3.
Defined.

(** * Further properties of the listener interface *)

Lemma corrupted_false_range (p : Z) :
  corrupted p = false ↔ 0x1000 ≤ p < 2 ^ 56.
Proof.
  unfold corrupted.
  rewrite orb_false_iff, negb_false_iff, Z.ltb_ge, Z.eqb_eq, Z.shiftr_div_pow2 by lia.
  rewrite Z.div_small_iff by lia. lia.
Qed.

Lemma invoked_in_snapshot (code : Plugins) (b : bool) (cb : ScriptCallback)
    (fn : CallbackT) :
  fn ∈ invoked (trace (Execute code b cb)) → fn ∈ m_functions cb ∧ valid fn.
Proof.
  destruct (ScriptContext.torn_down (m_root_context cb)) eqn:Ht.
  - rewrite Execute_unsafe by (rewrite context_safe_iff; congruence).
    by intros ?%elem_of_nil.
  - apply context_safe_iff in Ht. rewrite Execute_invoked by done.
    rewrite list_elem_of_In, filter_In, <- list_elem_of_In, negb_true_iff. done.
Qed.

Lemma AddListener_frame (fn : CallbackT) (cb : ScriptCallback) :
  m_name (state (AddListener fn cb)) = m_name cb ∧
  m_root_context (state (AddListener fn cb)) = m_root_context cb.
Proof.
  destruct (corrupted fn) eqn:Hc.
  - by rewrite AddListener_rejected.
  - by rewrite AddListener_accepted.
Qed.

Lemma RemoveListener_frame (fn : CallbackT) (cb : ScriptCallback) :
  m_name (state (RemoveListener fn cb)) = m_name cb ∧
  m_root_context (state (RemoveListener fn cb)) = m_root_context cb.
Proof.
  destruct (decide (fn = 0)) as [->|Hn]; [done|].
  by rewrite RemoveListener_run.
Qed.

Lemma Execute_step_frame (P : ScriptCallback → Prop) (code : Plugins)
    (nI : nat) (fn : CallbackT) (s : ScriptCallback) :
  (∀ f s, P s → P (on_context f s)) →
  (∀ fn s, valid fn → P s → P (code fn s).1.2) →
  P s → P (state (Execute_step code nI fn s)).
Proof.
  intros Hctx Hcode Hs. destruct (corrupted fn) eqn:Hc.
  - by rewrite Execute_step_skipped.
  - rewrite Execute_step_called by done. specialize (Hcode fn s Hc Hs).
    destruct (code fn s) as [[[[]|] s1] ls]; unfold state; simpl in *; auto.
Qed.

Lemma after_pass_frame (P : ScriptCallback → Prop) (code : Plugins)
    (fns : list CallbackT) :
  (∀ f s, P s → P (on_context f s)) →
  (∀ fn s, valid fn → P s → P (code fn s).1.2) →
  ∀ s, P s → P (after_pass code fns s).
Proof.
  intros Hctx Hcode. induction fns as [|fn fns IH]; intros s Hs; [done|].
  apply IH. by apply Execute_step_frame.
Qed.

(** X1. The address test lets through exactly the addresses from [0x1000]
    up to, and not including, [2^56]; in particular never a null pointer. *)
Theorem corrupted_accepts_exactly_range (p : Z) :
  (corrupted p = false ↔ 0x1000 ≤ p < 2 ^ 56) ∧
  (corrupted p = true ↔ p < 0x1000 ∨ 2 ^ 56 ≤ p).
Proof.
  split; [apply corrupted_false_range|].
  rewrite <- not_false_iff_true, corrupted_false_range. lia.
Qed.

(** X2. Whatever the listener vector holds, [Execute] only ever calls
    pointers that were in the vector when it started and that pass the
    address test: a null pointer, or an address outside [0x1000, 2^56), is
    never called. *)
Theorem Execute_calls_only_valid_entries (code : Plugins) (b : bool)
    (cb : ScriptCallback) (fn : CallbackT) :
  fn ∈ invoked (trace (Execute code b cb)) →
  fn ∈ m_functions cb ∧ fn ≠ 0 ∧ 0x1000 ≤ fn < 2 ^ 56.
Proof.
  intros [Hin Hv]%invoked_in_snapshot. split; [done|].
  apply corrupted_false_range in Hv. lia.
Qed.

Lemma Execute_calls_only_valid_entries_witness :
  Session.fnA ∈ m_functions
    (set_functions [0; Session.fnA; 0x180000001400000] (Construct "round_start")) ∧
  Session.fnA ≠ 0 ∧ 0x1000 ≤ Session.fnA < 2 ^ 56.
Proof.
  apply (Execute_calls_only_valid_entries Session.quiet false).
  vm_compute. left.
Defined.

(** X3. [Execute] changes the callback only through its listeners and
    through the context: a property of the callback that no listener breaks
    and that does not depend on the context still holds when [Execute]
    returns. *)
Theorem Execute_frame (P : ScriptCallback → Prop) (code : Plugins) (b : bool)
    (cb : ScriptCallback) :
  (∀ f s, P s → P (on_context f s)) →
  (∀ fn s, valid fn → P s → P (code fn s).1.2) →
  P cb → P (state (Execute code b cb)).
Proof.
  intros Hctx Hcode Hcb.
  destruct (ScriptContext.torn_down (m_root_context cb)) eqn:Ht.
  - rewrite Execute_unsafe by (rewrite context_safe_iff; congruence).
    by apply Hctx.
  - apply context_safe_iff in Ht. rewrite (Execute_safe code b cb Ht).
    destruct (Execute_loop_run code (m_functions cb) 0%nat cb) as (_ & Hst & _).
    unfold state in *. simpl. rewrite Hst.
    pose proof (after_pass_frame P code (m_functions cb) Hctx Hcode cb Hcb).
    destruct b; [by apply Hctx | done].
Qed.

Lemma Execute_frame_witness :
  m_functions (state (Execute Session.faults true
                        (Session.round_start [Session.fnA; Session.fnB])))
    = [Session.fnA; Session.fnB].
Proof.
  apply (Execute_frame (λ s, m_functions s = [Session.fnA; Session.fnB])).
  - intros f s Hs. exact Hs.
  - intros fn s _ Hs. unfold Session.faults.
    destruct (bool_decide (fn = Session.fnB)); exact Hs.
  - reflexivity.
Defined.

(** X4. A callback that has only been handled through [AddListener] and
    [RemoveListener] since it was constructed holds no pointer that fails
    the address test, keeps its name and its zero context, and a pass of
    [Execute] calls its whole vector in order. *)
Theorem apply_ops_keeps_vector_valid (szName : string) (ops : list listener_op)
    (code : Plugins) (b : bool) :
  let cb := apply_ops ops (Construct szName) in
  valid_callback cb ∧
  m_name cb = szName ∧
  m_root_context cb = ScriptContext.zero ∧
  invoked (trace (Execute code b cb)) = m_functions cb.
Proof.
  cbv zeta.
  assert (∀ s, valid_callback s ∧ m_name s = szName
               ∧ m_root_context s = ScriptContext.zero →
          valid_callback (apply_ops ops s) ∧ m_name (apply_ops ops s) = szName
          ∧ m_root_context (apply_ops ops s) = ScriptContext.zero) as Hinv.
  { induction ops as [|op ops IH]; intros s Hs; [done|].
    apply IH. destruct Hs as (Hv & Hn & Hc). destruct op as [fn|fn]; simpl.
    - destruct (AddListener_frame fn s) as [-> ->].
      split; [by apply valid_AddListener | done].
    - destruct (RemoveListener_frame fn s) as [-> ->].
      split; [by apply valid_RemoveListener | done]. }
  destruct (Hinv (Construct szName)) as (Hv & Hn & Hc).
  { split; [apply valid_Construct | done]. }
  split; [done|]. split; [done|]. split; [done|].
  rewrite Execute_invoked by (apply context_safe_iff; by rewrite Hc).
  by apply filter_valid.
Qed.

Lemma RemoveListener_AddListener_run (fn : CallbackT) (cb : ScriptCallback) :
  valid fn →
  RemoveListener fn (state (AddListener fn cb)) =
    (Normal true, set_functions (List.filter (differs fn) (m_functions cb)) cb,
     [Log TRACE (Removed fn (m_name cb))]).
Proof.
  intros Hv. pose proof (valid_not_null fn Hv) as Hn.
  rewrite AddListener_accepted by done. unfold state. simpl.
  rewrite RemoveListener_run by done. simpl.
  assert (List.filter (differs fn) (m_functions cb ++ [fn])
          = List.filter (differs fn) (m_functions cb)) as Hf.
  { rewrite List.filter_app. simpl. unfold differs at 2.
    rewrite bool_decide_eq_true_2 by done. simpl. by rewrite app_nil_r. }
  rewrite Hf.
  pose proof (filter_length_le (differs fn) (m_functions cb)) as Hle.
  rewrite length_app. simpl.
  assert ((length (List.filter (differs fn) (m_functions cb))
           =? length (m_functions cb) + 1)%nat = false) as ->
    by (apply Nat.eqb_neq; lia).
  done.
Qed.

(** X5. [RemoveListener] right after [AddListener] of the same valid
    pointer returns true and leaves the vector without any occurrence of
    it; if the pointer was not in the vector before, the callback is back
    to what it was. *)
Theorem RemoveListener_after_AddListener (fn : CallbackT) (cb : ScriptCallback) :
  valid fn →
  RemoveListener fn (state (AddListener fn cb)) =
    (Normal true, set_functions (List.filter (differs fn) (m_functions cb)) cb,
     [Log TRACE (Removed fn (m_name cb))]) ∧
  (fn ∉ m_functions cb → state (RemoveListener fn (state (AddListener fn cb))) = cb).
Proof.
  intros Hv. rewrite (RemoveListener_AddListener_run fn cb Hv).
  split; [done|]. intros Hout. unfold state. simpl.
  by rewrite filter_differs_absent, set_functions_same.
Qed.

Lemma RemoveListener_after_AddListener_witness :
  let cb := Session.round_start [Session.fnA; Session.fnB] in
  state (RemoveListener Session.fnC (state (AddListener Session.fnC cb))) = cb.
Proof.
  intros cb.
  destruct (RemoveListener_after_AddListener Session.fnC cb) as [_ Hback];
    [reflexivity|].
  apply Hback. vm_compute. intros Hin.
  repeat (apply elem_of_cons in Hin as [Hin|Hin]; [discriminate|]).
  by apply elem_of_nil in Hin.
Defined.

(** X6. A second [RemoveListener] of the same pointer returns false and
    changes nothing. *)
Theorem RemoveListener_twice (fn : CallbackT) (cb : ScriptCallback) :
  let cb1 := state (RemoveListener fn cb) in
  result (RemoveListener fn cb1) = Normal false ∧
  state (RemoveListener fn cb1) = cb1.
Proof.
  cbv zeta. destruct (decide (fn = 0)) as [->|Hn]; [done|].
  assert (fn ∉ m_functions (state (RemoveListener fn cb))) as Hout.
  { rewrite RemoveListener_run by done. unfold state. simpl.
    rewrite filter_differs_elem. tauto. }
  generalize dependent (state (RemoveListener fn cb)). intros cb1 Hout.
  rewrite RemoveListener_run by done. cbv zeta.
  rewrite (filter_differs_absent fn _ Hout), Nat.eqb_refl.
  unfold result, state. simpl. by rewrite set_functions_same.
Qed.

(** X7. Once [RemoveListener] has been called for a pointer, the next pass
    of [Execute] does not call it, whatever the listeners of that pass do. *)
Theorem Execute_never_calls_removed (fn : CallbackT) (code : Plugins) (b : bool)
    (cb : ScriptCallback) :
  fn ∉ invoked (trace (Execute code b (state (RemoveListener fn cb)))).
Proof.
  intros [Hin Hv]%invoked_in_snapshot.
  pose proof (valid_not_null fn Hv) as Hn.
  rewrite RemoveListener_run in Hin by done. unfold state in Hin. simpl in Hin.
  apply filter_differs_elem in Hin. tauto.
Qed.

(** X8. [bResetContext] makes no difference to what a pass does: the same
    calls and log lines, the same result, the same listener vector and
    name. When the context passes the probe the final state with the flag
    set is the one without it, followed by [Reset] of the context; when the
    pass is aborted the flag has no effect at all. *)
Theorem Execute_reset_flag (code : Plugins) (cb : ScriptCallback) :
  trace (Execute code true cb) = trace (Execute code false cb) ∧
  result (Execute code true cb) = result (Execute code false cb) ∧
  m_functions (state (Execute code true cb))
    = m_functions (state (Execute code false cb)) ∧
  m_name (state (Execute code true cb)) = m_name (state (Execute code false cb)) ∧
  (context_safe cb →
   state (Execute code true cb)
     = on_context ScriptContext.Reset (state (Execute code false cb))) ∧
  (¬ context_safe cb →
   state (Execute code true cb) = state (Execute code false cb)).
Proof.
  destruct (ScriptContext.torn_down (m_root_context cb)) eqn:Ht.
  - assert (¬ context_safe cb) as Hn by (rewrite context_safe_iff; congruence).
    rewrite !Execute_unsafe by done. repeat split; done.
  - apply context_safe_iff in Ht.
    rewrite (Execute_safe code true cb Ht), (Execute_safe code false cb Ht).
    repeat split; done.
Qed.

(** * Further properties of the manager *)

Lemma RemoveListener_result (fn : CallbackT) (cb : ScriptCallback) :
  result (RemoveListener fn cb)
    = Normal (bool_decide (fn ≠ 0 ∧ fn ∈ m_functions cb)).
Proof.
  destruct (decide (fn = 0)) as [->|Hn].
  { rewrite bool_decide_eq_false_2 by tauto. done. }
  rewrite RemoveListener_run by done. unfold result. simpl. f_equal.
  destruct (decide (fn ∈ m_functions cb)) as [Hin|Hout].
  - rewrite bool_decide_eq_true_2 by done.
    pose proof (filter_differs_length fn _ Hin) as Hlt.
    apply negb_true_iff, Nat.eqb_neq. lia.
  - rewrite bool_decide_eq_false_2 by tauto.
    by rewrite filter_differs_absent, Nat.eqb_refl.
Qed.

Lemma on_callback_run {A} (p : N) (m : Eff ScriptCallback A) (cb : ScriptCallback)
    (st : Process) :
  heap st !! p = Some cb →
  on_callback p m st =
    Some (result (m cb),
          {| heap := <[p := state (m cb)]> (heap st); m_managed := m_managed st |},
          trace (m cb)).
Proof.
  intros Hcb. unfold on_callback. rewrite Hcb.
  by destruct (m cb) as [[r cb1] tr].
Qed.

Lemma TryAddFunction_run (szName : string) (fn : CallbackT) (st : Process)
    (p : N) (cb : ScriptCallback) :
  FindCallback szName st = Some p → p ≠ nullptr → heap st !! p = Some cb →
  TryAddFunction szName fn st =
    Some (Normal true,
          {| heap := <[p := state (AddListener fn cb)]> (heap st);
             m_managed := m_managed st |},
          trace (AddListener fn cb)).
Proof.
  intros Hfind Hp Hcb. unfold TryAddFunction. rewrite Hfind.
  destruct (N.eqb_spec p nullptr) as [|_]; [done|]. simpl.
  rewrite (on_callback_run p _ cb st Hcb). by rewrite AddListener_returns.
Qed.

Lemma TryRemoveFunction_run (szName : string) (fn : CallbackT) (st : Process)
    (p : N) (cb : ScriptCallback) :
  FindCallback szName st = Some p → p ≠ nullptr → heap st !! p = Some cb →
  TryRemoveFunction szName fn st =
    Some (Normal (bool_decide (fn ≠ 0 ∧ fn ∈ m_functions cb)),
          {| heap := <[p := state (RemoveListener fn cb)]> (heap st);
             m_managed := m_managed st |},
          trace (RemoveListener fn cb)).
Proof.
  intros Hfind Hp Hcb. unfold TryRemoveFunction. rewrite Hfind.
  destruct (N.eqb_spec p nullptr) as [|_]; [done|]. simpl.
  rewrite (on_callback_run p _ cb st Hcb). by rewrite RemoveListener_result.
Qed.

Lemma managed_ok_insert (p : N) (cb : ScriptCallback) (st : Process) :
  managed_ok st → p ≠ nullptr →
  managed_ok {| heap := <[p := cb]> (heap st); m_managed := m_managed st |}.
Proof.
  intros (Hnull & Hnd & Hlive) Hp. unfold managed_ok. simpl.
  split; [by rewrite lookup_insert_ne|]. split; [done|].
  intros q Hq. destruct (decide (p = q)) as [->|Hne].
  - rewrite lookup_insert_eq. by eexists.
  - rewrite lookup_insert_ne by done. by apply Hlive.
Qed.

Lemma FindCallback_loop_names (h h' : gmap N ScriptCallback) (szName : string)
    (l : list N) :
  (∀ q, q ∈ l → m_name <$> h !! q = m_name <$> h' !! q) →
  FindCallback_loop h szName l = FindCallback_loop h' szName l.
Proof.
  induction l as [|q l IH]; [done|]. intros Hnames. simpl.
  pose proof (Hnames q (list_elem_of_here _ _)) as Hq.
  assert (FindCallback_loop h szName l = FindCallback_loop h' szName l) as Hrest.
  { apply IH. intros q' Hq'. apply Hnames. by apply list_elem_of_further. }
  destruct (h !! q) as [cb|], (h' !! q) as [cb'|]; simpl in Hq; try done.
  injection Hq as ->. by rewrite Hrest.
Qed.

Lemma FindCallback_insert_same_name (szName : string) (st : Process) (p : N)
    (cb cb' : ScriptCallback) :
  heap st !! p = Some cb → m_name cb' = m_name cb →
  FindCallback szName
    {| heap := <[p := cb']> (heap st); m_managed := m_managed st |}
  = FindCallback szName st.
Proof.
  intros Hcb Hname. unfold FindCallback. simpl.
  apply FindCallback_loop_names. intros q _.
  destruct (decide (p = q)) as [<-|Hne].
  - rewrite lookup_insert_eq, Hcb. simpl. by rewrite Hname.
  - by rewrite lookup_insert_ne.
Qed.

Lemma ClearAllCallbacks_loop_run (l : list N) :
  ∀ h : gmap N ScriptCallback,
    h !! nullptr = None → NoDup l → (∀ p, p ∈ l → is_Some (h !! p)) →
    ∃ h1 tr,
      ClearAllCallbacks_loop h l = Some (h1, tr) ∧
      length tr = length l ∧
      ∀ q, h1 !! q = if bool_decide (q ∈ l) then None else h !! q.
Proof.
  induction l as [|p l IH]; intros h Hnull Hnd Hlive.
  { exists h, []. split; [done|]. split; [done|]. intros q.
    rewrite bool_decide_eq_false_2; [done|]. by intros ?%elem_of_nil. }
  apply NoDup_cons in Hnd as [Hp Hnd].
  destruct (Hlive p (list_elem_of_here _ _)) as [cb Hcb].
  assert (p ≠ nullptr) as Hpn by (intros ->; congruence).
  destruct (IH (delete p h)) as (h1 & tr & Hrun & Hlen & Hh1).
  - by rewrite lookup_delete_ne.
  - done.
  - intros q Hq. rewrite lookup_delete_ne by (intros ->; done).
    apply Hlive. by apply list_elem_of_further.
  - exists h1, (Log TRACE (Clearing (m_name cb)) :: tr). simpl.
    destruct (N.eqb_spec p nullptr) as [|_]; [done|]. simpl.
    rewrite Hcb, Hrun. split; [done|]. split; [by rewrite Hlen|].
    intros q. rewrite Hh1. destruct (decide (q = p)) as [->|Hne].
    + rewrite (bool_decide_eq_true_2 (p ∈ p :: l)) by apply list_elem_of_here.
      case_bool_decide; [done|]. apply lookup_delete_eq.
    + rewrite lookup_delete_ne by done.
      assert (q ∈ p :: l ↔ q ∈ l) as Hiff by (rewrite elem_of_cons; tauto).
      repeat case_bool_decide; tauto.
Qed.

Lemma ClearAllCallbacks_run (st : Process) :
  managed_ok st →
  ∃ st1 tr,
    ClearAllCallbacks st = Some (Normal tt, st1, tr) ∧
    m_managed st1 = [] ∧
    length tr = (length (m_managed st) + 2)%nat ∧
    ∀ q, heap st1 !! q
         = if bool_decide (q ∈ m_managed st) then None else heap st !! q.
Proof.
  intros (Hnull & Hnd & Hlive).
  destruct (ClearAllCallbacks_loop_run (m_managed st) (heap st) Hnull Hnd Hlive)
    as (h1 & tr & Hrun & Hlen & Hh1).
  unfold ClearAllCallbacks. rewrite Hrun. eexists _, _. split; [done|].
  simpl. split; [done|]. split; [|done].
  rewrite length_app. simpl. lia.
Qed.

Lemma managed_ok_cleared (st st1 : Process) :
  managed_ok st → m_managed st1 = [] →
  (∀ q, heap st1 !! q
        = if bool_decide (q ∈ m_managed st) then None else heap st !! q) →
  managed_ok st1.
Proof.
  intros (Hnull & _ & _) Hm Hh. unfold managed_ok. rewrite Hm, Hh.
  split; [by case_bool_decide|]. split; [constructor|].
  by intros p ?%elem_of_nil.
Qed.

Lemma ReleaseCallback_defined (p : N) (st : Process) (r : outcome unit)
    (st1 : Process) (tr : list event) :
  ReleaseCallback p st = Some (r, st1, tr) → p ≠ nullptr →
  ∃ cb, heap st !! p = Some cb.
Proof.
  intros Hrel Hp. unfold ReleaseCallback in Hrel.
  destruct (N.eqb_spec p nullptr) as [|_]; [done|].
  destruct (heap st !! p) as [cb|]; [by exists cb | done].
Qed.

Lemma FindCallback_release_other_name (h : gmap N ScriptCallback) (p : N)
    (cb : ScriptCallback) (name : string) (l : list N) :
  h !! p = Some cb → m_name cb ≠ name →
  FindCallback_loop (delete p h) name (List.filter (other p) l)
  = FindCallback_loop h name l.
Proof.
  intros Hcb Hname. induction l as [|x l IH]; [done|]. simpl.
  unfold other at 1. destruct (N.eqb_spec p x) as [<-|Hne]; simpl.
  - rewrite Hcb. destruct (strcmp_is_0 (m_name cb) name) eqn:Hcmp; [|done].
    by apply strcmp_is_0_eq in Hcmp.
  - rewrite lookup_delete_ne by done. destruct (h !! x) as [cbx|]; [|done].
    by destruct (strcmp_is_0 _ _).
Qed.

Lemma FindCallback_release_other_result (h : gmap N ScriptCallback) (p q : N)
    (cb : ScriptCallback) (name : string) (l : list N) :
  h !! p = Some cb → q ≠ p →
  FindCallback_loop h name l = Some q →
  FindCallback_loop (delete p h) name (List.filter (other p) l) = Some q.
Proof.
  intros Hcb Hq. induction l as [|x l IH]; [done|]. simpl.
  unfold other at 1. destruct (N.eqb_spec p x) as [<-|Hne]; simpl.
  - rewrite Hcb. destruct (strcmp_is_0 _ _); [congruence | done].
  - rewrite lookup_delete_ne by done. destruct (h !! x) as [cbx|]; [|done].
    by destruct (strcmp_is_0 _ _).
Qed.

Lemma managed_ok_run_call `{Allocator} (c : manager_call) (st st1 : Process)
    (r : outcome unit) (tr : list event) :
  managed_ok st → run_call c st = Some (r, st1, tr) →
  r = Normal tt ∧ managed_ok st1.
Proof.
  intros Hok Hrun. destruct c as [szName|p|szName fn|szName fn|]; simpl in Hrun.
  - injection Hrun as <- <- <-. split; [done|].
    by apply managed_ok_CreateCallback.
  - assert (r = Normal tt) as ->.
    { unfold ReleaseCallback in Hrun.
      destruct (p =? nullptr)%N; [by injection Hrun as <- _ _|].
      destruct (heap st !! p); [|done].
      destruct (ranges_remove_if _ _) as [v new_end].
      by destruct (negb _); injection Hrun as <- _ _. }
    split; [done|]. by eapply managed_ok_ReleaseCallback.
  - unfold mbind, Proc_bind, proc_bind in Hrun.
    destruct (FindCallback szName st) as [p|] eqn:Hfind.
    2: { unfold TryAddFunction in Hrun. by rewrite Hfind in Hrun. }
    destruct (decide (p = nullptr)) as [->|Hp].
    { unfold TryAddFunction in Hrun. rewrite Hfind in Hrun. simpl in Hrun.
      by injection Hrun as <- <- <-. }
    destruct (FindCallback_live szName st p Hfind Hp) as (cb & Hcb & _).
    rewrite (TryAddFunction_run szName fn st p cb Hfind Hp Hcb) in Hrun.
    simpl in Hrun. injection Hrun as <- <- <-. split; [done|].
    by apply managed_ok_insert.
  - unfold mbind, Proc_bind, proc_bind in Hrun.
    destruct (FindCallback szName st) as [p|] eqn:Hfind.
    2: { unfold TryRemoveFunction in Hrun. by rewrite Hfind in Hrun. }
    destruct (decide (p = nullptr)) as [->|Hp].
    { unfold TryRemoveFunction in Hrun. rewrite Hfind in Hrun. simpl in Hrun.
      by injection Hrun as <- <- <-. }
    destruct (FindCallback_live szName st p Hfind Hp) as (cb & Hcb & _).
    rewrite (TryRemoveFunction_run szName fn st p cb Hfind Hp Hcb) in Hrun.
    simpl in Hrun. injection Hrun as <- <- <-. split; [done|].
    by apply managed_ok_insert.
  - destruct (ClearAllCallbacks_run st Hok) as (st2 & tr2 & Hclr & Hm & _ & Hh).
    rewrite Hclr in Hrun. injection Hrun as <- <- <-. split; [done|].
    by eapply managed_ok_cleared.
Qed.

(** X9. [TryRemoveFunction] returns false and changes nothing when no
    callback has the name. Otherwise it works on the first callback of that
    name only, and what it returns is what [RemoveListener] returns: true
    exactly when the pointer is not null and was in that callback's
    vector. *)
Theorem TryRemoveFunction_spec (szName : string) (fn : CallbackT) (st : Process)
    (p : N) :
  FindCallback szName st = Some p →
  (p = nullptr → TryRemoveFunction szName fn st = Some (Normal false, st, [])) ∧
  (p ≠ nullptr →
   ∃ cb, heap st !! p = Some cb ∧ m_name cb = szName ∧
     TryRemoveFunction szName fn st =
       Some (Normal (bool_decide (fn ≠ 0 ∧ fn ∈ m_functions cb)),
             {| heap := <[p := state (RemoveListener fn cb)]> (heap st);
                m_managed := m_managed st |},
             trace (RemoveListener fn cb)) ∧
     (fn ≠ 0 → fn ∉ m_functions cb →
      TryRemoveFunction szName fn st = Some (Normal false, st, []))).
Proof.
  intros Hfind. split.
  - intros ->. unfold TryRemoveFunction. by rewrite Hfind.
  - intros Hp. destruct (FindCallback_live szName st p Hfind Hp) as (cb & Hcb & Hname).
    exists cb. split; [done|]. split; [done|].
    rewrite (TryRemoveFunction_run szName fn st p cb Hfind Hp Hcb).
    split; [done|]. intros Hn Hout.
    rewrite RemoveListener_run by done. cbv zeta.
    rewrite filter_differs_absent, Nat.eqb_refl by done.
    unfold state, trace. simpl.
    rewrite bool_decide_eq_false_2 by tauto.
    by rewrite set_functions_same, insert_id, Process_eta.
Qed.

Lemma TryRemoveFunction_spec_witness :
  TryRemoveFunction "round_start" Session.fnB one_callback
    = Some (Normal false, one_callback, []) ∧
  TryRemoveFunction "round_end" Session.fnA one_callback
    = Some (Normal false, one_callback, []).
Proof.
  destruct (TryRemoveFunction_spec "round_start" Session.fnB one_callback 1%N)
    as [_ H1]; [reflexivity|].
  destruct (TryRemoveFunction_spec "round_end" Session.fnA one_callback nullptr)
    as [H2 _]; [reflexivity|].
  split; [|by apply H2].
  destruct H1 as (cb & Hcb & _ & _ & Habsent); [done|].
  apply Habsent; [done|].
  injection Hcb as <-. vm_compute. intros Hin.
  repeat (apply elem_of_cons in Hin as [Hin|Hin]; [discriminate|]).
  by apply elem_of_nil in Hin.
Defined.

(** X10. [TryAddFunction] of a valid pointer that the named callback does
    not hold yet, followed by [TryRemoveFunction] of the same pointer under
    the same name, returns true both times and leaves the process as it
    was. *)
Theorem TryRemoveFunction_undoes_TryAddFunction (szName : string)
    (fn : CallbackT) (st : Process) (p : N) (cb : ScriptCallback) :
  FindCallback szName st = Some p → p ≠ nullptr → heap st !! p = Some cb →
  valid fn → fn ∉ m_functions cb →
  ∃ st1 tr1 tr2,
    TryAddFunction szName fn st = Some (Normal true, st1, tr1) ∧
    heap st1 !! p = Some (set_functions (m_functions cb ++ [fn]) cb) ∧
    TryRemoveFunction szName fn st1 = Some (Normal true, st, tr2).
Proof.
  intros Hfind Hp Hcb Hv Hout.
  rewrite (TryAddFunction_run szName fn st p cb Hfind Hp Hcb).
  eexists _, _, _. split; [done|]. simpl.
  rewrite AddListener_accepted by done. unfold state at 1 2. simpl.
  rewrite lookup_insert_eq. split; [done|].
  erewrite TryRemoveFunction_run; [| | done | simpl; apply lookup_insert_eq].
  2: { by rewrite (FindCallback_insert_same_name szName st p cb). }
  pose proof (RemoveListener_AddListener_run fn cb Hv) as Hrun.
  rewrite AddListener_accepted in Hrun by done.
  unfold state at 1 in Hrun. simpl in Hrun. rewrite Hrun.
  unfold state, trace. simpl.
  rewrite filter_differs_absent, set_functions_same by done.
  rewrite insert_insert_eq, (insert_id _ _ _ Hcb), Process_eta.
  rewrite bool_decide_eq_true_2; [done|].
  split; [by apply valid_not_null|]. apply elem_of_app. right.
  apply list_elem_of_here.
Qed.

Lemma TryRemoveFunction_undoes_TryAddFunction_witness :
  ∃ st1 tr1 tr2,
    TryAddFunction "round_start" Session.fnB one_callback
      = Some (Normal true, st1, tr1) ∧
    heap st1 !! 1%N = Some (Session.round_start [Session.fnA; Session.fnB]) ∧
    TryRemoveFunction "round_start" Session.fnB st1
      = Some (Normal true, one_callback, tr2).
Proof.
  apply (TryRemoveFunction_undoes_TryAddFunction "round_start" Session.fnB
           one_callback 1%N (Session.round_start [Session.fnA])).
  - reflexivity.
  - discriminate.
  - reflexivity.
  - reflexivity.
  - vm_compute. intros Hin.
    repeat (apply elem_of_cons in Hin as [Hin|Hin]; [discriminate|]).
    by apply elem_of_nil in Hin.
Defined.

(** X11. The manager's bookkeeping survives every run of its operations:
    starting from a process where the null address holds nothing and every
    address of [m_managed] is live and listed once, any sequence of
    [CreateCallback], [ReleaseCallback], [TryAddFunction],
    [TryRemoveFunction] and [ClearAllCallbacks] that stays within defined
    behaviour ends normally in a process where the same holds. *)
Theorem run_calls_keeps_managed_ok `{Allocator} (cs : list manager_call)
    (st st1 : Process) (r : outcome unit) (tr : list event) :
  managed_ok st → run_calls cs st = Some (r, st1, tr) →
  r = Normal tt ∧ managed_ok st1.
Proof.
  revert st tr. induction cs as [|c cs IH]; intros st tr Hok Hrun.
  - simpl in Hrun. by injection Hrun as <- <- _.
  - simpl in Hrun. unfold mbind, Proc_bind, proc_bind in Hrun.
    destruct (run_call c st) as [[[r0 st0] tr0]|] eqn:Hc; [|done].
    destruct (managed_ok_run_call c st st0 r0 tr0 Hok Hc) as [-> Hok0].
    destruct (run_calls cs st0) as [[[r2 st2] tr2]|] eqn:Hcs; [|done].
    injection Hrun as <- <- _. by eapply IH.
Qed.

Lemma run_calls_keeps_managed_ok_witness :
  managed_ok {| heap := <[2%N := Construct "round_start"]> ∅; m_managed := [] |}.
Proof.
  apply (run_calls_keeps_managed_ok
           [CallTryAdd "round_start" Session.fnB; CallRelease 1%N; CallClearAll]
           one_callback _ (Normal tt)
           [Log TRACE (Added Session.fnB "round_start");
            Log TRACE (Releasing "round_start"); Log TRACE Released;
            Log TRACE (ClearingAll 0); Log TRACE AllCleared]).
  - split; [reflexivity|]. split; [apply NoDup_singleton|].
    intros p Hp. apply list_elem_of_singleton in Hp. subst p.
    eexists. reflexivity.
  - vm_compute. reflexivity.
Defined.

(** X12. On a process whose bookkeeping is in order no operation of the
    manager reads or deletes through a dead address: [FindCallback],
    [TryAddFunction], [TryRemoveFunction] and [ClearAllCallbacks] always
    have a result, and so has [ReleaseCallback] of a null pointer, of a
    managed address or of any other live address. *)
Theorem manager_stays_defined (szName : string) (fn : CallbackT) (st : Process) :
  managed_ok st →
  is_Some (FindCallback szName st) ∧
  is_Some (TryAddFunction szName fn st) ∧
  is_Some (TryRemoveFunction szName fn st) ∧
  is_Some (ClearAllCallbacks st) ∧
  is_Some (ReleaseCallback nullptr st) ∧
  (∀ p, p ∈ m_managed st ∨ is_Some (heap st !! p) →
        is_Some (ReleaseCallback p st)).
Proof.
  intros Hok. pose proof Hok as (Hnull & Hnd & Hlive).
  assert (is_Some (FindCallback szName st)) as [p Hfind]
    by by apply FindCallback_loop_total.
  split; [by eexists|].
  assert (is_Some (TryAddFunction szName fn st)
          ∧ is_Some (TryRemoveFunction szName fn st)) as [Hadd Hrem].
  { destruct (decide (p = nullptr)) as [->|Hp].
    - unfold TryAddFunction, TryRemoveFunction. rewrite Hfind. simpl.
      split; by eexists.
    - destruct (FindCallback_live szName st p Hfind Hp) as (cb & Hcb & _).
      rewrite (TryAddFunction_run szName fn st p cb Hfind Hp Hcb).
      rewrite (TryRemoveFunction_run szName fn st p cb Hfind Hp Hcb).
      split; by eexists. }
  split; [done|]. split; [done|]. split.
  { destruct (ClearAllCallbacks_run st Hok) as (st1 & tr & -> & _). by eexists. }
  split; [by eexists|].
  intros q Hq.
  assert (is_Some (heap st !! q)) as [cb Hcb].
  { destruct Hq as [Hq|Hq]; [by apply Hlive | done]. }
  assert (q ≠ nullptr) as Hqn by (intros ->; congruence).
  rewrite (ReleaseCallback_run q cb st Hqn Hcb). by eexists.
Qed.

Lemma manager_stays_defined_witness :
  is_Some (TryRemoveFunction "round_start" Session.fnA one_callback) ∧
  is_Some (ReleaseCallback 2%N one_callback).
Proof.
  destruct (manager_stays_defined "round_start" Session.fnA one_callback)
    as (_ & _ & Hrem & _ & _ & Hrel).
  - split; [reflexivity|]. split; [apply NoDup_singleton|].
    intros p Hp. apply list_elem_of_singleton in Hp. subst p.
    eexists. reflexivity.
  - split; [exact Hrem|]. apply Hrel. right. eexists. reflexivity.
Defined.



(** X14. Creating a callback changes a lookup only for the new callback's
    own name, and only if no older callback has that name: then the lookup
    returns the new callback; every other lookup returns what it returned
    before. *)
Theorem FindCallback_after_CreateCallback `{Allocator} (szName name : string)
    (st : Process) (p : N) :
  managed_ok st →
  FindCallback name st = Some p →
  FindCallback name (CreateCallback szName st).1.2 =
    Some (if (p =? nullptr)%N && strcmp_is_0 szName name
          then (CreateCallback szName st).1.1 else p).
Proof.
  intros (Hnull & Hnd & Hlive) Hfind. unfold FindCallback, CreateCallback in *.
  simpl. unfold push_back.
  destruct (operator_new_fresh (heap st)) as [Hp1 Hfree].
  set (p1 := operator_new (heap st)) in *.
  assert (FindCallback_loop (<[p1:=Construct szName]> (heap st)) name (m_managed st)
          = Some p) as Hold.
  { rewrite <- Hfind. symmetry. apply FindCallback_loop_ext. intros q Hq.
    rewrite lookup_insert_ne; [done|]. intros <-.
    destruct (Hlive _ Hq) as [cb Hcb]. congruence. }
  destruct (N.eqb_spec p nullptr) as [->|Hp]; simpl.
  - rewrite FindCallback_loop_app; [| by rewrite lookup_insert_ne | done].
    simpl. rewrite lookup_insert_eq. simpl. by destruct (strcmp_is_0 _ _).
  - by apply FindCallback_loop_app_found.
Qed.

Lemma FindCallback_after_CreateCallback_witness :
  FindCallback "round_start" (CreateCallback "round_start" one_callback).1.2
    = Some 1%N ∧
  FindCallback "round_end" (CreateCallback "round_end" one_callback).1.2
    = Some (CreateCallback "round_end" one_callback).1.1.
Proof.
  assert (managed_ok one_callback) as Hok.
  { split; [reflexivity|]. split; [apply NoDup_singleton|].
    intros p Hp. apply list_elem_of_singleton in Hp. subst p.
    eexists. reflexivity. }
  split.
  - apply (FindCallback_after_CreateCallback "round_start" "round_start"
             one_callback 1%N Hok). reflexivity.
  - apply (FindCallback_after_CreateCallback "round_end" "round_end"
             one_callback nullptr Hok). reflexivity.
Defined.

(** X15. After [ReleaseCallback] of a live callback no lookup returns its
    address any more; a lookup that returned another callback, or none,
    still returns the same; and lookups of names other than the released
    callback's are unchanged. *)
Theorem FindCallback_after_ReleaseCallback (p : N) (cb : ScriptCallback)
    (st st1 : Process) (r : outcome unit) (tr : list event) :
  p ≠ nullptr → heap st !! p = Some cb →
  ReleaseCallback p st = Some (r, st1, tr) →
  (∀ name, FindCallback name st1 ≠ Some p) ∧
  (∀ name q, FindCallback name st = Some q → q ≠ p →
             FindCallback name st1 = Some q) ∧
  (∀ name, m_name cb ≠ name → FindCallback name st1 = FindCallback name st).
Proof.
  intros Hp Hcb Hrel. rewrite (ReleaseCallback_run p cb st Hp Hcb) in Hrel.
  injection Hrel as _ <- _. unfold FindCallback. simpl. split; [|split].
  - intros name Hfind.
    destruct (FindCallback_loop_found _ _ _ _ Hfind Hp)
      as (l1 & l2 & _ & Hl & _).
    assert (p ∈ List.filter (other p) (m_managed st)) as Hin.
    { rewrite Hl. apply elem_of_app. right. apply list_elem_of_here. }
    apply filter_other_elem in Hin. tauto.
  - intros name q Hfind Hq. by apply FindCallback_release_other_result with cb.
  - intros name Hname. by apply FindCallback_release_other_name with cb.
Qed.

Lemma FindCallback_after_ReleaseCallback_witness :
  FindCallback "round_start"
    {| heap := delete 1%N (heap one_callback); m_managed := [] |} ≠ Some 1%N ∧
  FindCallback "round_end"
    {| heap := delete 1%N (heap one_callback); m_managed := [] |}
  = FindCallback "round_end" one_callback.
Proof.
  destruct (FindCallback_after_ReleaseCallback 1%N
              (Session.round_start [Session.fnA]) one_callback
              {| heap := delete 1%N (heap one_callback); m_managed := [] |}
              (Normal tt)
              [Log TRACE (Releasing "round_start"); Log TRACE Released])
    as (Hgone & _ & Hother); [discriminate | reflexivity | reflexivity |].
  split; [apply Hgone | apply Hother; discriminate].
Defined.

(** X16. [ReleaseCallback] does not guard against being handed the same
    address twice: after a release that went through, a second release of
    that address reads the name through the deleted callback, which has no
    defined behaviour. *)
Theorem ReleaseCallback_twice_undefined (p : N) (st st1 : Process)
    (r : outcome unit) (tr : list event) :
  p ≠ nullptr →
  ReleaseCallback p st = Some (r, st1, tr) →
  heap st1 !! p = None ∧ ReleaseCallback p st1 = None.
Proof.
  intros Hp Hrel.
  destruct (ReleaseCallback_defined p st r st1 tr Hrel Hp) as [cb Hcb].
  rewrite (ReleaseCallback_run p cb st Hp Hcb) in Hrel.
  injection Hrel as _ <- _. simpl.
  assert (delete p (heap st) !! p = None) as Hgone by apply lookup_delete_eq.
  split; [done|]. unfold ReleaseCallback.
  destruct (N.eqb_spec p nullptr) as [|_]; [done|]. simpl. by rewrite Hgone.
Qed.

Lemma ReleaseCallback_twice_undefined_witness :
  ReleaseCallback 2
    {| heap := delete 2%N (heap one_callback); m_managed := [1%N] |} = None.
Proof.
  apply (ReleaseCallback_twice_undefined 2%N one_callback _ (Normal tt)
           [Log TRACE (Releasing "round_start");
            Log WARN (ReleaseNotFound "round_start")]).
  - discriminate.
  - reflexivity.
Defined.

Lemma filter_other_app_self (p : N) (l : list N) :
  List.filter (other p) (l ++ [p]) = List.filter (other p) l.
Proof.
  rewrite List.filter_app. simpl. unfold other at 2.
  by rewrite N.eqb_refl, app_nil_r.
Qed.

Lemma filter_other_app_ne (p q : N) (l : list N) :
  p ≠ q → List.filter (other p) (l ++ [q]) = List.filter (other p) l ++ [q].
Proof.
  intros Hne. rewrite List.filter_app. simpl. unfold other at 2.
  by destruct (N.eqb_spec p q).
Qed.

Lemma Process_ext (a b : Process) :
  heap a = heap b → m_managed a = m_managed b → a = b.
Proof. destruct a, b. simpl. by intros -> ->. Qed.

Lemma CallbackPair_delete_null (st : Process) :
  CallbackPair_delete {| pre := nullptr; post := nullptr |} st
  = Some (Normal {| pre := nullptr; post := nullptr |}, st, []).
Proof. reflexivity. Qed.

Lemma CallbackPair_delete_run (this : CallbackPair) (st : Process)
    (cb1 cb2 : ScriptCallback) :
  pre this ≠ nullptr → post this ≠ nullptr → pre this ≠ post this →
  heap st !! pre this = Some cb1 → heap st !! post this = Some cb2 →
  ∃ tr,
    CallbackPair_delete this st =
      Some (Normal {| pre := nullptr; post := nullptr |},
            {| heap := delete (post this) (delete (pre this) (heap st));
               m_managed := List.filter (other (post this))
                              (List.filter (other (pre this)) (m_managed st)) |},
            tr).
Proof.
  intros Hpre Hpost Hne Hcb1 Hcb2. unfold CallbackPair_delete.
  unfold mbind, mret, Proc_bind, Proc_ret, proc_bind, proc_ret.
  destruct (N.eqb_spec (pre this) nullptr) as [|_]; [done|]. simpl.
  rewrite (ReleaseCallback_run _ cb1 st Hpre Hcb1). simpl.
  destruct (N.eqb_spec (post this) nullptr) as [|_]; [done|]. simpl.
  erewrite (ReleaseCallback_run _ cb2); [| done |].
  2: { simpl. by rewrite lookup_delete_ne. }
  simpl. by eexists.
Qed.

(** X17. A [CallbackPair] as its constructor builds it holds two distinct
    new callbacks named with the empty string, appended to [m_managed] in
    the order pre, post; its destructor releases both, sets both fields to
    null and leaves the process as it was before the pair was
    constructed. *)
Theorem CallbackPair_new_delete `{Allocator} (st : Process) :
  managed_ok st →
  let pair := (CallbackPair_new st).1.1 in
  let st1 := (CallbackPair_new st).1.2 in
  pre pair ≠ nullptr ∧ post pair ≠ nullptr ∧ pre pair ≠ post pair ∧
  heap st1 !! pre pair = Some (Construct "") ∧
  heap st1 !! post pair = Some (Construct "") ∧
  m_managed st1 = m_managed st ++ [pre pair; post pair] ∧
  ∃ tr,
    CallbackPair_delete pair st1 =
      Some (Normal {| pre := nullptr; post := nullptr |}, st, tr).
Proof.
  intros (Hnull & Hnd & Hlive). cbv zeta.
  unfold CallbackPair_new, CreateCallback, push_back. simpl.
  set (h := heap st). set (p1 := operator_new h).
  set (h1 := <[p1:=Construct ""]> h). set (p2 := operator_new h1).
  destruct (operator_new_fresh h) as [Hp1 Hfree1]. fold p1 in Hp1, Hfree1.
  destruct (operator_new_fresh h1) as [Hp2 Hfree2]. fold p2 in Hp2, Hfree2.
  assert (p1 ≠ p2) as Hne.
  { intros Heq. rewrite <- Heq in Hfree2. subst h1.
    by rewrite lookup_insert_eq in Hfree2. }
  assert (h !! p2 = None) as Hfree2'.
  { subst h1. by rewrite lookup_insert_ne in Hfree2. }
  assert (∀ q, q ∈ m_managed st → q ≠ p1 ∧ q ≠ p2) as Hold.
  { intros q Hq. destruct (Hlive q Hq) as [cb Hcb]. fold h in Hcb.
    split; intros ->; congruence. }
  split; [done|]. split; [done|]. split; [done|]. split.
  { subst h1. by rewrite lookup_insert_ne, lookup_insert_eq. }
  split; [by rewrite lookup_insert_eq|]. split; [by rewrite <- app_assoc|].
  destruct (CallbackPair_delete_run {| pre := p1; post := p2 |}
              {| heap := <[p2:=Construct ""]> h1;
                 m_managed := (m_managed st ++ [p1]) ++ [p2] |}
              (Construct "") (Construct "")) as [tr Hrun]; simpl; try done.
  { subst h1. by rewrite lookup_insert_ne, lookup_insert_eq. }
  { by rewrite lookup_insert_eq. }
  exists tr. rewrite Hrun. f_equal. f_equal. f_equal.
  apply Process_ext; simpl.
  - subst h1. rewrite delete_insert_ne by done.
    rewrite (delete_insert_id h p1) by done.
    by rewrite (delete_insert_id h p2).
  - rewrite (filter_other_app_ne p1 p2) by done.
    rewrite (filter_other_app_self p1).
    rewrite (filter_other_absent p1); [| intros Hin; by destruct (Hold p1 Hin)].
    rewrite (filter_other_app_self p2).
    apply filter_other_absent. intros Hin. by destruct (Hold p2 Hin).
Qed.

Lemma CallbackPair_new_delete_witness :
  ∃ tr,
    CallbackPair_delete (CallbackPair_new one_callback).1.1
      (CallbackPair_new one_callback).1.2
    = Some (Normal {| pre := nullptr; post := nullptr |}, one_callback, tr).
Proof.
  destruct (CallbackPair_new_delete one_callback) as (_ & _ & _ & _ & _ & _ & Hdel).
  - split; [reflexivity|]. split; [apply NoDup_singleton|].
    intros p Hp. apply list_elem_of_singleton in Hp. subst p.
    eexists. reflexivity.
  - exact Hdel.
Defined.

(** X18. Whenever the destructor of a [CallbackPair] gets through, it leaves
    both fields null, and running it again on what it left releases
    nothing, writes nothing and changes nothing. A field that is null from
    the start is skipped: for a pair without callbacks the destructor does
    nothing at all. *)
Theorem CallbackPair_delete_once (this this1 : CallbackPair) (st st1 : Process)
    (tr : list event) :
  CallbackPair_delete this st = Some (Normal this1, st1, tr) →
  this1 = {| pre := nullptr; post := nullptr |} ∧
  CallbackPair_delete this1 st1 = Some (Normal this1, st1, []) ∧
  (pre this = nullptr → post this = nullptr → st1 = st ∧ tr = []).
Proof.
  intros Hrun.
  assert (this1 = {| pre := nullptr; post := nullptr |}
          ∧ (pre this = nullptr → post this = nullptr → st1 = st ∧ tr = []))
    as [-> Hskip].
  { unfold CallbackPair_delete in Hrun.
    unfold mbind, mret, Proc_bind, Proc_ret, proc_bind, proc_ret in Hrun.
    destruct this as [p1 p2]. simpl in *.
    destruct (N.eqb_spec p1 nullptr) as [->|Hp1]; simpl in Hrun.
    - destruct (N.eqb_spec p2 nullptr) as [->|Hp2]; simpl in Hrun.
      + injection Hrun as <- <- <-. done.
      + destruct (ReleaseCallback p2 st) as [[[[[]|] st2] tr2]|]; simpl in Hrun;
          try done.
        injection Hrun as <- <- <-. done.
    - destruct (ReleaseCallback p1 st) as [[[[[]|] st2] tr2]|]; simpl in Hrun;
        try done.
      destruct (N.eqb_spec p2 nullptr) as [->|Hp2]; simpl in Hrun.
      + injection Hrun as <- <- <-. done.
      + destruct (ReleaseCallback p2 st2) as [[[[[]|] st3] tr3]|]; simpl in Hrun;
          try done.
        injection Hrun as <- <- <-. done. }
  split; [done|]. split; [apply CallbackPair_delete_null | done].
Qed.

Lemma CallbackPair_delete_once_witness :
  CallbackPair_delete {| pre := nullptr; post := nullptr |}
    {| heap := ∅; m_managed := [] |}
  = Some (Normal {| pre := nullptr; post := nullptr |},
          {| heap := ∅; m_managed := [] |}, []).
Proof.
  destruct (CallbackPair_delete_once {| pre := 1%N; post := 2%N |}
              {| pre := nullptr; post := nullptr |} one_callback
              {| heap := ∅; m_managed := [] |}
              [Log TRACE (Releasing "round_start"); Log TRACE Released;
               Log TRACE (Releasing "round_start");
               Log WARN (ReleaseNotFound "round_start")])
    as (_ & Hagain & _); [vm_compute; reflexivity|].
  exact Hagain.
Defined.

(** X19. A valid pointer registered through [TryAddFunction] is called by
    the next [Execute] of the callback found under that name, after the
    listeners the callback already had. *)
Theorem Execute_after_TryAddFunction (szName : string) (fn : CallbackT)
    (st : Process) (p : N) (cb : ScriptCallback) (code : Plugins) (b : bool) :
  FindCallback szName st = Some p → p ≠ nullptr → heap st !! p = Some cb →
  valid fn → valid_callback cb → context_safe cb →
  ∃ st1 tr cb1,
    TryAddFunction szName fn st = Some (Normal true, st1, tr) ∧
    heap st1 !! p = Some cb1 ∧
    invoked (trace (Execute code b cb1)) = m_functions cb ++ [fn].
Proof.
  intros Hfind Hp Hcb Hv Hvalid Hsafe.
  rewrite (TryAddFunction_run szName fn st p cb Hfind Hp Hcb).
  eexists _, _, _. split; [done|]. simpl. split; [apply lookup_insert_eq|].
  rewrite AddListener_accepted by done.
  change (state (Normal tt, set_functions (m_functions cb ++ [fn]) cb,
                 [Log TRACE (Added fn (m_name cb))]))
    with (set_functions (m_functions cb ++ [fn]) cb).
  rewrite Execute_invoked by (apply context_safe_iff; simpl;
                              by apply context_safe_iff).
  simpl. apply filter_valid, Forall_app. split; [done|]. by constructor.
Qed.

Lemma Execute_after_TryAddFunction_witness :
  ∃ st1 tr cb1,
    TryAddFunction "round_start" Session.fnB one_callback
      = Some (Normal true, st1, tr) ∧
    heap st1 !! 1%N = Some cb1 ∧
    invoked (trace (Execute Session.quiet false cb1))
      = [Session.fnA; Session.fnB].
Proof.
  apply (Execute_after_TryAddFunction "round_start" Session.fnB one_callback
           1%N (Session.round_start [Session.fnA]) Session.quiet false).
  - reflexivity.
  - discriminate.
  - reflexivity.
  - reflexivity.
  - repeat constructor.
  - reflexivity.
Defined.
